(** * Local MP2 pair-amplitude solver of Serenity: a shallow embedding

    This development embeds [src/postHF/MPn/LocalMP2.cpp] and verifies the
    statements of the specification about [LocalMP2::optimizeAmplitudes],
    [LocalMP2::calculateEnergy] and [LocalMP2::calculateEnergyCorrection].

    - a C++ [double] is a binary64 float of the kernel ([PrimFloat.float]);
    - an [Eigen::MatrixXd] is the list of its rows;
    - the objects behind the [std::shared_ptr<OrbitalPair>] handles live in
      a store, a map from addresses to [OrbitalPair] records, so that two
      handles to one pair alias as they do in the program;
    - [unsigned int] orbital indices are natural numbers (they are only
      compared), the cycle counter is an integer with its 32-bit wrap-around
      written out. *)

From Stdlib Require Import ZArith Lia List Bool.
From Stdlib Require Import PrimFloat.
From stdpp Require Import base list functions.
From Stdlib Require FloatAxioms SpecFloat FloatOps.
Import ListNotations.

(** ** Scalars *)

Abbreviation double := PrimFloat.float.

(** [std::fabs(x) >= y] *)
Definition fabs_ge (x y : double) : bool := PrimFloat.leb y (PrimFloat.abs x).

(** [x > y] on doubles; false as soon as one side is NaN. *)
Definition gt (x y : double) : bool := PrimFloat.ltb y x.

(** [x != 0.0] *)
Definition nonzero (x : double) : bool := negb (PrimFloat.eqb x 0%float).

(** ** Dense matrices ([Eigen::MatrixXd]) *)

Definition Matrix := list (list double).

Definition rows (A : Matrix) : nat := length A.
Definition cols (A : Matrix) : nat :=
  match A with [] => 0 | r :: _ => length r end.

(** [Eigen::MatrixXd::Zero(r, c)] *)
Definition Zero (r c : nat) : Matrix := replicate r (replicate c 0%float).

(** [A(r, c)]; Eigen leaves an access outside the matrix undefined, the
    embedding reads 0 there. *)
Definition coeff (A : Matrix) (r c : nat) : double :=
  nth c (nth r A []) 0%float.

(** Coefficient-wise binary operations.  Eigen requires both operands to
    have one shape; on other operands the embedding truncates to the
    common shape. *)
Definition cwise (f : double -> double -> double) (A B : Matrix) : Matrix :=
  zip_with (zip_with f) A B.

Definition cwiseSum := cwise PrimFloat.add.
Definition cwiseDifference := cwise PrimFloat.sub.
Definition cwiseProduct := cwise PrimFloat.mul.
Definition cwiseQuotient := cwise PrimFloat.div.

(** [c * A] *)
Definition scale (c : double) (A : Matrix) : Matrix :=
  map (map (PrimFloat.mul c)) A.

Definition column (A : Matrix) (c : nat) : list double :=
  map (fun r => nth c r 0%float) A.

(** [A.transpose()] *)
Definition transpose (A : Matrix) : Matrix :=
  map (column A) (seq 0 (cols A)).

(** Sums are accumulated from 0, front to back and row after row; Eigen
    does not fix the order of its reductions, the embedding fixes this
    one. *)
Definition sum_list (xs : list double) : double :=
  fold_left PrimFloat.add xs 0%float.

Definition dot (xs ys : list double) : double :=
  sum_list (zip_with PrimFloat.mul xs ys).

(** [A * B] *)
Definition product (A B : Matrix) : Matrix :=
  map (fun r => map (fun c => dot r (column B c)) (seq 0 (cols B))) A.

(** [A.sum()] *)
Definition sum (A : Matrix) : double :=
  fold_left (fun acc r => fold_left PrimFloat.add r acc) A 0%float.

(** [A.array().abs().maxCoeff()]: the running maximum starts at the first
    coefficient.  Eigen leaves [maxCoeff] of an empty matrix undefined, the
    embedding yields 0 there. *)
Definition absMaxCoeff (A : Matrix) : double :=
  match concat A with
  | [] => 0%float
  | x :: xs =>
      fold_left (fun m y => if gt (PrimFloat.abs y) m then PrimFloat.abs y else m)
                xs (PrimFloat.abs x)
  end.

(** ** Orbital pairs and coupling sets *)

Inductive OrbitalPairTypes := CLOSE | DISTANT | VERY_DISTANT.

Definition is_VERY_DISTANT (t : OrbitalPairTypes) : bool :=
  match t with VERY_DISTANT => true | _ => false end.

(** The address of an [OrbitalPair] object: what a
    [std::shared_ptr<OrbitalPair>] holds. *)
Abbreviation ptr := nat.

(** [CouplingOrbitalSet]: the coupling of a pair (i,j) through the orbital
    [k], with the accessors that [LocalMP2.cpp] calls (the class itself is
    declared in a header outside these sources).  The two companion
    handles are empty when the companion pair was screened away. *)
Record CouplingOrbitalSet := mkCouplingOrbitalSet {
  getK : nat;
  getKJPairScreened : option ptr;
  getIKPairScreened : option ptr;
  getS_ij_kj : Matrix;
  getS_ij_ik : Matrix
}.

(** [OrbitalPair], with the members that [LocalMP2.cpp] reads or writes
    (the class itself is declared in a header outside these sources). *)
Record OrbitalPair := mkOrbitalPair {
  i : nat;
  j : nat;
  type : OrbitalPairTypes;
  k_ij : Matrix;
  t_ij : Matrix;
  residual : Matrix;
  uncoupledTerm : Matrix;
  coupledPairs : list CouplingOrbitalSet;
  lMP2PairEnergy : double;
  deltaPNO : double;
  scMP2PairEnergy : double;
  dipolePairEnergy : double;
  nAuxFunctions : nat
}.

(** Field assignments [pair->residual = m], [pair->t_ij = m] and
    [pair->lMP2PairEnergy = e]. *)
Definition set_residual (m : Matrix) (pair : OrbitalPair) : OrbitalPair :=
  mkOrbitalPair (i pair) (j pair) (type pair) (k_ij pair) (t_ij pair) m
    (uncoupledTerm pair) (coupledPairs pair) (lMP2PairEnergy pair)
    (deltaPNO pair) (scMP2PairEnergy pair) (dipolePairEnergy pair)
    (nAuxFunctions pair).

Definition set_t_ij (m : Matrix) (pair : OrbitalPair) : OrbitalPair :=
  mkOrbitalPair (i pair) (j pair) (type pair) (k_ij pair) m (residual pair)
    (uncoupledTerm pair) (coupledPairs pair) (lMP2PairEnergy pair)
    (deltaPNO pair) (scMP2PairEnergy pair) (dipolePairEnergy pair)
    (nAuxFunctions pair).

Definition set_lMP2PairEnergy (e : double) (pair : OrbitalPair) : OrbitalPair :=
  mkOrbitalPair (i pair) (j pair) (type pair) (k_ij pair) (t_ij pair)
    (residual pair) (uncoupledTerm pair) (coupledPairs pair) e
    (deltaPNO pair) (scMP2PairEnergy pair) (dipolePairEnergy pair)
    (nAuxFunctions pair).

(** The store: the pair object behind every handle.  A
    [std::vector<std::shared_ptr<OrbitalPair>>] is a list of addresses. *)
Abbreviation Store := (ptr -> OrbitalPair).

(** ** Settings *)

(** [LocalMP2Settings] (member [settings] of [LocalMP2]), with the
    members that [LocalMP2.cpp] reads.  [maxCycles] is compared with the
    [unsigned int] cycle counter, so [settings.maxCycles - 1] is taken
    modulo 2^32 whether the member is signed or not. *)
Record LocalMP2Settings := mkLocalMP2Settings {
  ssScaling : double;
  osScaling : double;
  maxCycles : Z;
  maxResidual : double;
  useFourCenterIntegrals : bool
}.

(** ** Energy evaluation: [LocalMP2::calculateEnergy] *)

(** [(pair->i == pair->j ? 1.0 : 2.0)] *)
Definition pairFactor (pair : OrbitalPair) : double :=
  if Nat.eqb (i pair) (j pair) then 1%float else 2%float.

Definition ssEnergy (pair : OrbitalPair) : double :=
  (pairFactor pair *
   sum (cwiseProduct (cwiseDifference (t_ij pair) (transpose (t_ij pair)))
                     (k_ij pair)))%float.

Definition osEnergy (pair : OrbitalPair) : double :=
  (pairFactor pair * sum (cwiseProduct (t_ij pair) (k_ij pair)))%float.

Definition pairEnergy (settings : LocalMP2Settings) (pair : OrbitalPair) : double :=
  (ssScaling settings * ssEnergy pair + osScaling settings * osEnergy pair)%float.

(** Body of the first loop: accumulate the pair energy and store it,
    together with the PNO correction, in the pair. *)
Definition closePair_step (settings : LocalMP2Settings)
    (acc : Store * double) (p : ptr) : Store * double :=
  let '(st, localMP2PairEnergies) := acc in
  let pair := st p in
  let e := pairEnergy settings pair in
  (<[p := set_lMP2PairEnergy (e + deltaPNO pair)%float pair]> st,
   (localMP2PairEnergies + e)%float).

(** Body of the second loop. *)
Definition veryDistantPair_step (st : Store) (dipoleContribution : double)
    (p : ptr) : double :=
  let pair := st p in
  if nonzero (scMP2PairEnergy pair)
  then (dipoleContribution + scMP2PairEnergy pair)%float
  else (dipoleContribution + dipolePairEnergy pair)%float.

(** Body of the third loop. *)
Definition pnoTruncation_step (st : Store) (pnoTruncation : double)
    (p : ptr) : double :=
  (pnoTruncation + deltaPNO (st p))%float.

(** The returned [Eigen::VectorXd] is the list of its components. *)
Definition calculateEnergy (settings : LocalMP2Settings) (st : Store)
    (closePairs veryDistantPairs : list ptr) : list double * Store :=
  let '(st1, localMP2PairEnergies) :=
    fold_left (closePair_step settings) closePairs (st, 0%float) in
  let dipoleContribution :=
    fold_left (veryDistantPair_step st1) veryDistantPairs 0%float in
  let pnoTruncation :=
    fold_left (pnoTruncation_step st1) closePairs 0%float in
  ([localMP2PairEnergies; dipoleContribution; pnoTruncation], st1).

(** ** Amplitude optimization: [LocalMP2::optimizeAmplitudes] *)

(** The settings of the local correlation controller that the solver reads. *)
Record LocalCorrelationSettings := mkLocalCorrelationSettings {
  fockMatrixPrescreeningThresholdd : double;
  diisStartResidual : double
}.

(** What the solver obtains from its collaborators: the Fock matrix, the
    occupied block [actCoef] of the coefficient matrix, the settings, and
    the OpenMP runtime: the number of threads and the thread that the
    static schedule gives iteration [index] of the coupling loop.  A build
    without OpenMP is [omp_get_max_threads = 1] with
    [omp_get_thread_num = fun _ => 0]. *)
Record Environment := mkEnvironment {
  getFockMatrix : Matrix;
  actCoef : Matrix;
  getSettings : LocalCorrelationSettings;
  omp_get_max_threads : nat;
  omp_get_thread_num : nat -> nat
}.

(** [f_MO = actCoef.transpose() * f * actCoef] *)
Definition f_MO (env : Environment) : Matrix :=
  product (product (transpose (actCoef env)) (getFockMatrix env)) (actCoef env).

Definition f_cut (env : Environment) : double :=
  fockMatrixPrescreeningThresholdd (getSettings env).

(** [s * t * s.transpose()] *)
Definition SxTxS (s t : Matrix) : Matrix :=
  product (product s t) (transpose s).

(** [(k >= j) ? kjPair->t_ij : kjPair->t_ij.transpose()] *)
Definition amplitudes_kj (k j : nat) (kjPair : OrbitalPair) : Matrix :=
  if Nat.leb j k then t_ij kjPair else transpose (t_ij kjPair).

(** [(i >= k) ? ikPair->t_ij : ikPair->t_ij.transpose()] *)
Definition amplitudes_ik (i k : nat) (ikPair : OrbitalPair) : Matrix :=
  if Nat.leb k i then t_ij ikPair else transpose (t_ij ikPair).

(** [*increments[threadId] -= c * tmp].  An index outside [increments] is
    undefined in the program (it cannot arise: the thread number is below
    the thread count); the embedding leaves the vector unchanged there. *)
Definition subtract_from (threadId : nat) (c : double) (tmp : Matrix)
    (increments : list Matrix) : list Matrix :=
  alter (fun m => cwiseDifference m (scale c tmp)) threadId increments.

(** The first [if] of the coupling loop: the (k,j) companion. *)
Definition kj_term (env : Environment) (st : Store) (i j threadId : nat)
    (coupledSet : CouplingOrbitalSet) (increments : list Matrix) : list Matrix :=
  let k := getK coupledSet in
  match getKJPairScreened coupledSet with
  | Some kjPair =>
      if fabs_ge (coeff (f_MO env) i k) (f_cut env) && negb (Nat.eqb i k) then
        let s_ij_kj := getS_ij_kj coupledSet in
        let tmp := SxTxS s_ij_kj (amplitudes_kj k j (st kjPair)) in
        subtract_from threadId (coeff (f_MO env) i k) tmp increments
      else increments
  | None => increments
  end.

(** The second [if] of the coupling loop: the (i,k) companion. *)
Definition ik_term (env : Environment) (st : Store) (i j threadId : nat)
    (coupledSet : CouplingOrbitalSet) (increments : list Matrix) : list Matrix :=
  let k := getK coupledSet in
  match getIKPairScreened coupledSet with
  | Some ikPair =>
      if fabs_ge (coeff (f_MO env) j k) (f_cut env) && negb (Nat.eqb j k) then
        let s_ij_ik := getS_ij_ik coupledSet in
        let tmp := SxTxS s_ij_ik (amplitudes_ik i k (st ikPair)) in
        subtract_from threadId (coeff (f_MO env) k j) tmp increments
      else increments
  | None => increments
  end.

(** One iteration of the coupling loop. *)
Definition coupling_body (env : Environment) (st : Store) (i j : nat)
    (index : nat) (coupledSet : CouplingOrbitalSet)
    (increments : list Matrix) : list Matrix :=
  let threadId := omp_get_thread_num env index in
  ik_term env st i j threadId coupledSet
    (kj_term env st i j threadId coupledSet increments).

(** The loop [for (index = 0; index < pair->coupledPairs.size(); ++index)].
    Under OpenMP its iterations run on several threads; every thread writes
    its own accumulator only and runs its iterations in increasing order,
    and no amplitude is written inside the region, so the accumulators at
    the barrier are those of the iterations taken in increasing order. *)
Fixpoint coupling_loop (env : Environment) (st : Store) (i j : nat)
    (index : nat) (sets : list CouplingOrbitalSet)
    (increments : list Matrix) : list Matrix :=
  match sets with
  | [] => increments
  | coupledSet :: rest =>
      coupling_loop env st i j (S index) rest
        (coupling_body env st i j index coupledSet increments)
  end.

(** [increments] before the coupling loop: the residual, then one zero
    accumulator for every further thread. *)
Definition initial_increments (env : Environment) (residual : Matrix) : list Matrix :=
  residual ::
  replicate (omp_get_max_threads env - 1) (Zero (rows residual) (cols residual)).

(** [for (inc = 1; inc < increments.size(); ++inc) *increments[0] += *increments[inc];] *)
Definition reduce_increments (increments : list Matrix) : Matrix :=
  match increments with
  | [] => []
  | first :: others => fold_left cwiseSum others first
  end.

(** The local [residual] of a pair from the copy of [pair->residual] to
    the end of the reduction, as a function of the store. *)
Definition local_residual (env : Environment) (st : Store) (p : ptr) : Matrix :=
  let pair := st p in
  let residual :=
    cwiseSum (residual pair) (cwiseProduct (uncoupledTerm pair) (t_ij pair)) in
  reduce_increments
    (coupling_loop env st (i pair) (j pair) 0 (coupledPairs pair)
       (initial_increments env residual)).

(** Body of [for (auto& pair : orbitalPairs)]. *)
Definition sweep_pair (env : Environment) (acc : Store * double) (p : ptr)
    : Store * double :=
  let '(st, largestResidual) := acc in
  if is_VERY_DISTANT (type (st p)) then (st, largestResidual)
  else
    let st1 := <[p := set_residual (k_ij (st p)) (st p)]> st in
    let residual := local_residual env st1 p in
    let pair := st1 p in
    let st2 :=
      <[p := set_t_ij (cwiseDifference (t_ij pair)
                         (cwiseQuotient residual (uncoupledTerm pair))) pair]> st1 in
    let maxCoeff := absMaxCoeff residual in
    (st2, if gt maxCoeff largestResidual then maxCoeff else largestResidual).

(** One sweep over the pairs: [largestResidual = 0.0] and the [for] loop. *)
Definition sweep (env : Environment) (st : Store) (orbitalPairs : list ptr)
    : Store * double :=
  fold_left (sweep_pair env) orbitalPairs (st, 0%float).

(** How [optimizeAmplitudes] ends: it returns ("Converged!") or it throws
    a [SerenityError].  Both carry the store as the call leaves it, the
    cycle counter and the last value of [largestResidual]. *)
Inductive Outcome :=
| Converged (cycle : Z) (largestResidual : double) (st : Store)
| SerenityError (cycle : Z) (largestResidual : double) (st : Store).

Definition final_store (o : Outcome) : Store :=
  match o with Converged _ _ st | SerenityError _ _ st => st end.

Definition UINT_MAX_plus_1 : Z := 2 ^ 32.

Section Optimization.

(** Modelled from the spec: [OrbitalPairDIISWrapper], whose source is
    outside these sources.  The accelerator keeps a history, is given the
    amplitude and residual matrices of the pairs and produces new
    amplitude estimates that overwrite the pairs' amplitudes in place,
    on some or all pairs. *)
Variable DIIS : Type.
Variable diis_extrapolate : DIIS -> list (Matrix * Matrix) -> DIIS * list Matrix.

Definition write_amplitude (st : Store) (pt : ptr * Matrix) : Store :=
  <[pt.1 := set_t_ij pt.2 (st pt.1)]> st.

(** [diis.optimize(orbitalPairs, {})] *)
Definition diis_optimize (diis : DIIS) (st : Store) (orbitalPairs : list ptr)
    : DIIS * Store :=
  let '(diis', amplitudes) :=
    diis_extrapolate diis
      (map (fun p => (t_ij (st p), residual (st p))) orbitalPairs) in
  (diis', fold_left write_amplitude (zip orbitalPairs amplitudes) st).

Variable env : Environment.
Variable settings : LocalMP2Settings.

(** One pass through the body of the [while] loop, up to the test of the
    cycle counter.  The printed line and the timings are left out. *)
Definition cycle_body (st : Store) (diis : DIIS)
    (orbitalPairs veryDistantPairs : list ptr) : Store * DIIS * double :=
  let '(st1, largestResidual) := sweep env st orbitalPairs in
  let '(_, st2) := calculateEnergy settings st1 orbitalPairs veryDistantPairs in
  let '(diis', st3) :=
    if gt (diisStartResidual (getSettings env)) largestResidual
    then diis_optimize diis st2 orbitalPairs
    else (diis, st2) in
  (st3, diis', largestResidual).

(** The [while] loop.  [fuel] bounds the number of cycles the embedding
    runs; [None] means the bound was reached.  The test
    [cycle > settings.maxCycles - 1] is the last statement of the body
    that can end the loop: it runs before the loop condition is tested
    again. *)
Fixpoint optimizeAmplitudes_loop (fuel : nat)
    (orbitalPairs veryDistantPairs : list ptr)
    (st : Store) (diis : DIIS) (largestResidual : double) (cycle : Z)
    : option Outcome :=
  if gt largestResidual (maxResidual settings) then
    match fuel with
    | O => None
    | S fuel' =>
        let '(st', diis', largestResidual') :=
          cycle_body st diis orbitalPairs veryDistantPairs in
        let cycle' := ((cycle + 1) mod UINT_MAX_plus_1)%Z in
        if (cycle' >? (maxCycles settings - 1) mod UINT_MAX_plus_1)%Z
        then Some (SerenityError cycle' largestResidual' st')
        else optimizeAmplitudes_loop fuel' orbitalPairs veryDistantPairs
               st' diis' largestResidual' cycle'
    end
  else Some (Converged cycle largestResidual st).

(** [double largestResidual = 10; unsigned int cycle = 0;] and a fresh
    accelerator [diis]. *)
Definition optimizeAmplitudes (fuel : nat) (diis : DIIS) (st : Store)
    (orbitalPairs veryDistantPairs : list ptr) : option Outcome :=
  optimizeAmplitudes_loop fuel orbitalPairs veryDistantPairs st diis 10%float 0%Z.

(** ** [LocalMP2::calculateEnergyCorrection(pairs)] *)

Definition classify (st : Store) (acc : list ptr * list ptr) (p : ptr)
    : list ptr * list ptr :=
  let '(closePairs, veryDistantPairs) := acc in
  if is_VERY_DISTANT (type (st p))
  then (closePairs, veryDistantPairs ++ [p])
  else (closePairs ++ [p], veryDistantPairs).

Definition split_pairs (st : Store) (pairs : list ptr) : list ptr * list ptr :=
  fold_left (classify st) pairs ([], []).

(** The result is the energy vector and the store, or the error thrown
    by [optimizeAmplitudes]. *)
Definition calculateEnergyCorrection (fuel : nat) (diis : DIIS) (st : Store)
    (pairs : list ptr) : option (list double * Store + Outcome) :=
  let '(closePairs, veryDistantPairs) := split_pairs st pairs in
  match optimizeAmplitudes fuel diis st closePairs veryDistantPairs with
  | None => None
  | Some (Converged _ _ st') =>
      Some (inl (calculateEnergy settings st' closePairs veryDistantPairs))
  | Some (SerenityError cycle largestResidual st') =>
      Some (inr (SerenityError cycle largestResidual st'))
  end.

End Optimization.

(** * Reference definitions

    The statements below compare the program with these definitions,
    which follow the wording of the specification. *)

(** ** The coupling sum, term by term *)

(** Whether the (k,j) companion of a coupling set passes the tests of the
    first [if], apart from the existence of the companion. *)
Definition kj_active (env : Environment) (i : nat) (c : CouplingOrbitalSet) : bool :=
  fabs_ge (coeff (f_MO env) i (getK c)) (f_cut env) && negb (Nat.eqb i (getK c)).

(** The same for the (i,k) companion and the second [if]. *)
Definition ik_active (env : Environment) (j : nat) (c : CouplingOrbitalSet) : bool :=
  fabs_ge (coeff (f_MO env) j (getK c)) (f_cut env) && negb (Nat.eqb j (getK c)).

(** What a coupling set subtracts from the residual of the pair (i,j)
    through its (k,j) companion, if anything. *)
Definition kj_contribution (env : Environment) (st : Store) (i j : nat)
    (c : CouplingOrbitalSet) : option Matrix :=
  match getKJPairScreened c with
  | Some kjPair =>
      if kj_active env i c then
        Some (scale (coeff (f_MO env) i (getK c))
                (SxTxS (getS_ij_kj c)
                   (if Nat.ltb (getK c) j then transpose (t_ij (st kjPair))
                    else t_ij (st kjPair))))
      else None
  | None => None
  end.

(** What it subtracts through its (i,k) companion, if anything. *)
Definition ik_contribution (env : Environment) (st : Store) (i j : nat)
    (c : CouplingOrbitalSet) : option Matrix :=
  match getIKPairScreened c with
  | Some ikPair =>
      if ik_active env j c then
        Some (scale (coeff (f_MO env) (getK c) j)
                (SxTxS (getS_ij_ik c)
                   (if Nat.ltb i (getK c) then transpose (t_ij (st ikPair))
                    else t_ij (st ikPair))))
      else None
  | None => None
  end.

(** The contributions of one coupling set, in the order in which the
    program subtracts them. *)
Definition contributions (env : Environment) (st : Store) (i j : nat)
    (c : CouplingOrbitalSet) : list Matrix :=
  option_list (kj_contribution env st i j c) ++
  option_list (ik_contribution env st i j c).

(** The contributions that thread [tid] subtracts from its accumulator,
    for the coupling sets at the indices [index], [index + 1], ... *)
Fixpoint thread_contributions (env : Environment) (st : Store) (i j : nat)
    (index : nat) (sets : list CouplingOrbitalSet) (tid : nat) : list Matrix :=
  match sets with
  | [] => []
  | c :: rest =>
      (if Nat.eqb (omp_get_thread_num env index) tid
       then contributions env st i j c else []) ++
      thread_contributions env st i j (S index) rest tid
  end.

(** The accumulator of thread [tid] at the end of the coupling loop:
    thread 0 starts from [k_ij + uncoupledTerm ⊙ t_ij], every other
    thread from zero. *)
Definition thread_accumulator (env : Environment) (st : Store)
    (pair : OrbitalPair) (tid : nat) : Matrix :=
  let uncoupled :=
    cwiseSum (k_ij pair) (cwiseProduct (uncoupledTerm pair) (t_ij pair)) in
  fold_left cwiseDifference
    (thread_contributions env st (i pair) (j pair) 0 (coupledPairs pair) tid)
    (match tid with
     | O => uncoupled
     | S _ => Zero (rows uncoupled) (cols uncoupled)
     end).

(** The residual of a pair: the accumulators added up in the order of the
    thread numbers. *)
Definition coupled_residual (env : Environment) (st : Store)
    (pair : OrbitalPair) : Matrix :=
  fold_left cwiseSum
    (map (thread_accumulator env st pair) (seq 1 (omp_get_max_threads env - 1)))
    (thread_accumulator env st pair 0).

(** ** The transposition rule as the specification words it

    The specification stores a pair with [i <= j]: the pair behind the
    coupling direction (a,b) is then stored as (min a b, max a b), which
    is the reverse of (a,b) exactly when [b < a]. *)
Definition reversed_in_le_storage (a b : nat) : bool := Nat.ltb b a.

Definition kj_contribution_le_storage (env : Environment) (st : Store)
    (i j : nat) (c : CouplingOrbitalSet) : option Matrix :=
  match getKJPairScreened c with
  | Some kjPair =>
      if kj_active env i c then
        Some (scale (coeff (f_MO env) i (getK c))
                (SxTxS (getS_ij_kj c)
                   (if reversed_in_le_storage (getK c) j
                    then transpose (t_ij (st kjPair))
                    else t_ij (st kjPair))))
      else None
  | None => None
  end.

(** ** The two-phase (Jacobi) reference of a sweep *)

(** The companions whose amplitudes a coupling set of the pair (i,j)
    makes the coupling sum read. *)
Definition set_reads (env : Environment) (i j : nat) (c : CouplingOrbitalSet)
    : list ptr :=
  (match getKJPairScreened c with
   | Some q => if kj_active env i c then [q] else []
   | None => []
   end) ++
  (match getIKPairScreened c with
   | Some q => if ik_active env j c then [q] else []
   | None => []
   end).

(** The pairs whose amplitudes the coupling sum of a pair reads. *)
Definition pair_reads (env : Environment) (pair : OrbitalPair) : list ptr :=
  flat_map (set_reads env (i pair) (j pair)) (coupledPairs pair).

Definition reads (env : Environment) (st : Store) (p : ptr) : list ptr :=
  pair_reads env (st p).

(** Phase two for one pair: the update of its amplitudes from a residual
    computed beforehand. *)
Definition apply_update (acc : Store * double) (pr : ptr * Matrix)
    : Store * double :=
  let '(st, largestResidual) := acc in
  let '(p, residual) := pr in
  if is_VERY_DISTANT (type (st p)) then (st, largestResidual)
  else
    let st1 := <[p := set_residual (k_ij (st p)) (st p)]> st in
    let pair := st1 p in
    let st2 :=
      <[p := set_t_ij (cwiseDifference (t_ij pair)
                         (cwiseQuotient residual (uncoupledTerm pair))) pair]> st1 in
    let maxCoeff := absMaxCoeff residual in
    (st2, if gt maxCoeff largestResidual then maxCoeff else largestResidual).

(** First every pair's residual from the amplitudes at the start of the
    cycle, then every pair's update. *)
Definition jacobi_sweep (env : Environment) (st : Store)
    (orbitalPairs : list ptr) : Store * double :=
  let residuals := map (fun p => coupled_residual env st (st p)) orbitalPairs in
  fold_left apply_update (zip orbitalPairs residuals) (st, 0%float).

(** No pair of the sweep occurs twice or reads the amplitudes of a pair
    that the sweep has processed before it ([processed] are the pairs
    processed so far). *)
Fixpoint forward_only (env : Environment) (st : Store) (processed pairs : list ptr)
    : Prop :=
  match pairs with
  | [] => True
  | p :: rest =>
      (p ∉ processed) /\ (forall q, q ∈ reads env st p -> q ∉ processed) /\
      forward_only env st (p :: processed) rest
  end.

(** ** The first energy component as the specification words it: the sum
    of the pair energies with the PNO correction included. *)
Definition sum_of_corrected_pair_energies (settings : LocalMP2Settings)
    (st : Store) (closePairs : list ptr) : double :=
  fold_left
    (fun a p => (a + (pairEnergy settings (st p) + deltaPNO (st p)))%float)
    closePairs 0%float.

(** [b] is [a] up to the stored pair energy [lMP2PairEnergy]. *)
Definition energy_frame (a b : OrbitalPair) : Prop :=
  b = set_lMP2PairEnergy (lMP2PairEnergy b) a.

(** The store that a call of [calculateEnergyCorrection] leaves. *)
Definition result_store (r : list double * Store + Outcome) : Store :=
  match r with
  | inl (_, st) => st
  | inr o => final_store o
  end.

(** * Example systems *)

(** An accelerator without history that proposes no amplitudes. *)
Definition idle_diis (d : unit) (_ : list (Matrix * Matrix))
    : unit * list Matrix := (d, []).

(** The double nearest to 1e-5, the customary threshold. *)
Definition threshold : double := 0x1.4f8b588e368f1p-17%float.

(** Two occupied orbitals, orthonormal coefficients, one thread, the
    accelerator switched off. *)
Definition two_orbitals : Environment :=
  mkEnvironment [[(-2)%float; 1%float]; [1%float; (-1)%float]]
                [[1%float; 0%float]; [0%float; 1%float]]
                (mkLocalCorrelationSettings threshold 0%float)
                1 (fun _ => 0).

(** The same with two threads that take the iterations in turn. *)
Definition two_threads : Environment :=
  mkEnvironment [[(-2)%float; 1%float]; [1%float; (-1)%float]]
                [[1%float; 0%float]; [0%float; 1%float]]
                (mkLocalCorrelationSettings threshold 0%float)
                2 (fun index => index mod 2).

Definition unscaled (maxCycles : Z) : LocalMP2Settings :=
  mkLocalMP2Settings 1%float 1%float maxCycles threshold false.

(** The diagonal pair (0,0) with one PNO and no coupling set. *)
Definition pair00 : OrbitalPair :=
  mkOrbitalPair 0 0 CLOSE [[1%float]] [[0%float]] [] [[1%float]] []
    0%float 0%float 0%float 0%float 1.

(** The pair (1,0): through k = 0 it couples to the pair (0,0) at
    address 0 (the (k,j) companion) and to itself (the (i,k) companion). *)
Definition pair10 : OrbitalPair :=
  mkOrbitalPair 1 0 CLOSE [[0%float]] [[0%float]] [] [[1%float]]
    [mkCouplingOrbitalSet 0 (Some 0) (Some 1) [[1%float]] [[1%float]]]
    0%float 0%float 0%float 0%float 1.

(** Address 0 holds the pair (0,0), every other address the pair (1,0). *)
Definition coupled_store : Store :=
  fun p => match p with O => pair00 | S _ => pair10 end.

(** The pair of the orbitals 0 and 1 stored as the specification has it,
    as (0,1), with two PNOs and amplitudes that are not symmetric. *)
Definition pair01_asymmetric : OrbitalPair :=
  mkOrbitalPair 0 1 CLOSE
    [[0%float; 0%float]; [0%float; 0%float]]
    [[0%float; 1%float]; [0%float; 0%float]] []
    [[1%float; 1%float]; [1%float; 1%float]] []
    0%float 0%float 0%float 0%float 2.

(** The coupling set of the pair (1,1) for k = 0: its (k,j) companion is
    the pair of the orbitals 0 and 1, at address 1. *)
Definition coupling_11_0 : CouplingOrbitalSet :=
  mkCouplingOrbitalSet 0 (Some 1) (Some 1)
    [[1%float; 0%float]; [0%float; 1%float]]
    [[1%float; 0%float]; [0%float; 1%float]].

Definition pair11 : OrbitalPair :=
  mkOrbitalPair 1 1 CLOSE
    [[0%float; 0%float]; [0%float; 0%float]]
    [[0%float; 0%float]; [0%float; 0%float]] []
    [[1%float; 1%float]; [1%float; 1%float]] [coupling_11_0]
    0%float 0%float 0%float 0%float 2.

Definition asymmetric_store : Store :=
  fun p => match p with O => pair11 | S _ => pair01_asymmetric end.

(** One converged pair with a PNO correction: k = 0.5, t = -0.5. *)
Definition pair_with_correction : OrbitalPair :=
  mkOrbitalPair 0 0 CLOSE [[0.5%float]] [[(-0.5)%float]] [] [[1%float]] []
    0%float (-0.125)%float 0%float 0%float 1.

Definition corrected_store : Store := fun _ => pair_with_correction.

(** The single uncoupled pair that the specification uses for its
    zero-coupling test, with 0.5 on the diagonal of [k_ij]: the second
    sweep finds the residual 0. *)
Definition single_pair : OrbitalPair :=
  mkOrbitalPair 0 0 CLOSE
    [[0.5%float; 0%float]; [0%float; 0.5%float]]
    [[0%float; 0%float]; [0%float; 0%float]] []
    [[1%float; 1%float]; [1%float; 1%float]] []
    0%float 0%float 0%float 0%float 2.

Definition single_store : Store := fun _ => single_pair.

(** A very distant pair (5,0) with a dipole pair energy and no
    semicanonical one. *)
Definition distant_pair : OrbitalPair :=
  mkOrbitalPair 5 0 VERY_DISTANT [] [[0.25%float]] [] [] []
    0%float 0%float 0%float (-0.001953125)%float 0.

(** Address 0 holds the pair (0,0), every other address the very distant
    pair. *)
Definition screened_store : Store :=
  fun p => match p with O => pair00 | S _ => distant_pair end.

(** The pair (0,0) after one update, and the coupled system with it. *)
Definition pair00_relaxed : OrbitalPair :=
  mkOrbitalPair 0 0 CLOSE [[1%float]] [[(-1)%float]] [[1%float]] [[1%float]] []
    0%float 0%float 0%float 0%float 1.

Definition relaxed_store : Store :=
  fun p => match p with O => pair00_relaxed | S _ => pair10 end.

(** * Further reference definitions *)

(** [b] is [a] up to the three fields that the solver writes: the
    amplitudes, the residual field and the stored pair energy. *)
Definition solver_frame (a b : OrbitalPair) : Prop :=
  i b = i a /\ j b = j a /\ type b = type a /\ k_ij b = k_ij a /\
  uncoupledTerm b = uncoupledTerm a /\ coupledPairs b = coupledPairs a /\
  deltaPNO b = deltaPNO a /\ scMP2PairEnergy b = scMP2PairEnergy a /\
  dipolePairEnergy b = dipolePairEnergy a /\
  nAuxFunctions b = nAuxFunctions a.

(** A pair after its update from the residual [r]: a very distant pair is
    left alone. *)
Definition updated_pair (pair : OrbitalPair) (r : Matrix) : OrbitalPair :=
  if is_VERY_DISTANT (type pair) then pair
  else set_t_ij (cwiseDifference (t_ij pair)
                   (cwiseQuotient r (uncoupledTerm pair)))
                (set_residual (k_ij pair) pair).

(** The state after [n] passes through the body of the [while] loop: the
    store, the accelerator and [largestResidual], which is 10 before the
    first pass. *)
Fixpoint cycles (DIIS : Type)
    (diis_extrapolate : DIIS -> list (Matrix * Matrix) -> DIIS * list Matrix)
    (env : Environment) (settings : LocalMP2Settings)
    (orbitalPairs veryDistantPairs : list ptr) (st : Store) (diis : DIIS)
    (n : nat) : Store * DIIS * double :=
  match n with
  | O => (st, diis, 10%float)
  | S m =>
      let '(st', diis', _) :=
        cycles DIIS diis_extrapolate env settings orbitalPairs
          veryDistantPairs st diis m in
      cycle_body DIIS diis_extrapolate env settings st' diis'
        orbitalPairs veryDistantPairs
  end.

(** The converged pair with another residual field, uncoupled term and
    stored energy. *)
Definition restamped_store : Store :=
  fun _ =>
    mkOrbitalPair 0 0 CLOSE [[0.5%float]] [[(-0.5)%float]] [[7%float]]
      [[2%float]] [] 3%float (-0.125)%float 0%float 0%float 1.

(** * Properties of the energy evaluation *)

Lemma energy_frame_refl a : energy_frame a a.
Proof. by destruct a. Qed.

Lemma energy_frame_trans a b c :
  energy_frame a b -> energy_frame b c -> energy_frame a c.
Proof.
  unfold energy_frame. intros Hab Hbc.
  rewrite Hbc at 1. rewrite Hab at 1. by destruct a.
Qed.

Lemma energy_frame_set e a : energy_frame a (set_lMP2PairEnergy e a).
Proof. by destruct a. Qed.

Lemma energy_frame_fields a b :
  energy_frame a b ->
  i b = i a /\ j b = j a /\ type b = type a /\ k_ij b = k_ij a /\
  t_ij b = t_ij a /\ residual b = residual a /\
  uncoupledTerm b = uncoupledTerm a /\ coupledPairs b = coupledPairs a /\
  deltaPNO b = deltaPNO a /\ scMP2PairEnergy b = scMP2PairEnergy a /\
  dipolePairEnergy b = dipolePairEnergy a /\
  nAuxFunctions b = nAuxFunctions a.
Proof. unfold energy_frame. intros ->. by destruct a. Qed.

Lemma pairEnergy_frame settings a b :
  energy_frame a b -> pairEnergy settings b = pairEnergy settings a.
Proof.
  intros H. apply energy_frame_fields in H.
  destruct H as (Hi & Hj & _ & Hk & Ht & _).
  unfold pairEnergy, ssEnergy, osEnergy, pairFactor.
  by rewrite Hi, Hj, Hk, Ht.
Qed.

Lemma closePair_step_frame settings st acc p q :
  energy_frame (st q) ((closePair_step settings (st, acc) p).1 q).
Proof.
  simpl. destruct (decide (p = q)) as [->|Hne].
  - rewrite fn_lookup_insert. apply energy_frame_set.
  - rewrite fn_lookup_insert_ne by done. apply energy_frame_refl.
Qed.

(** The first loop changes stored pair energies only. *)
Lemma closePairs_loop_frame settings closePairs : forall st acc q,
  energy_frame (st q)
    ((fold_left (closePair_step settings) closePairs (st, acc)).1 q).
Proof.
  induction closePairs as [|p l IH]; intros st acc q; simpl.
  - apply energy_frame_refl.
  - eapply energy_frame_trans; [|apply IH].
    apply (closePair_step_frame settings st acc p q).
Qed.

(** The first loop accumulates the pair energies of the pairs as they
    were on entry. *)
Lemma closePairs_loop_sum settings closePairs : forall st0 st acc,
  (forall q, energy_frame (st0 q) (st q)) ->
  (fold_left (closePair_step settings) closePairs (st, acc)).2 =
  fold_left (fun a p => (a + pairEnergy settings (st0 p))%float) closePairs acc.
Proof.
  induction closePairs as [|p l IH]; intros st0 st acc Hfr; simpl; [done|].
  rewrite (IH st0).
  - by rewrite (pairEnergy_frame settings _ _ (Hfr p)).
  - intros q. eapply energy_frame_trans; [apply Hfr|].
    apply (closePair_step_frame settings st acc p q).
Qed.

(** After the first loop every listed pair stores its pair energy plus its
    PNO correction; the other pairs are as before. *)
Lemma closePairs_loop_stored settings closePairs : forall st0 st acc p,
  (forall q, energy_frame (st0 q) (st q)) ->
  let st' := (fold_left (closePair_step settings) closePairs (st, acc)).1 in
  (In p closePairs ->
   lMP2PairEnergy (st' p) =
   (pairEnergy settings (st0 p) + deltaPNO (st0 p))%float) /\
  (~ In p closePairs -> st' p = st p).
Proof.
  induction closePairs as [|p0 l IH]; intros st0 st acc p Hfr; simpl.
  - split; [tauto|done].
  - set (st1 := <[p0 := _]> st).
    set (acc1 := (acc + _)%float).
    assert (Hfr1 : forall q, energy_frame (st0 q) (st1 q)).
    { intros q. eapply energy_frame_trans; [apply Hfr|].
      apply (closePair_step_frame settings st acc p0 q). }
    destruct (IH st0 st1 acc1 p Hfr1) as [Hin Hout].
    split.
    + intros [->|Hl].
      * destruct (in_dec Nat.eq_dec p l) as [Hl|Hl]; [by apply Hin|].
        rewrite (Hout Hl). unfold st1. rewrite fn_lookup_insert. simpl.
        rewrite (pairEnergy_frame settings _ _ (Hfr p)).
        by destruct (energy_frame_fields _ _ (Hfr p)) as (_&_&_&_&_&_&_&_&->&_).
      * by apply Hin.
    + intros Hn. rewrite Hout by tauto.
      unfold st1. rewrite fn_lookup_insert_ne; [done|tauto].
Qed.

Lemma calculateEnergy_store settings st closePairs veryDistantPairs :
  (calculateEnergy settings st closePairs veryDistantPairs).2 =
  (fold_left (closePair_step settings) closePairs (st, 0%float)).1.
Proof.
  unfold calculateEnergy.
  by destruct (fold_left (closePair_step settings) closePairs (st, 0%float)).
Qed.

Lemma calculateEnergy_frame settings st closePairs veryDistantPairs q :
  energy_frame (st q)
    ((calculateEnergy settings st closePairs veryDistantPairs).2 q).
Proof. rewrite calculateEnergy_store. apply closePairs_loop_frame. Qed.

Lemma calculateEnergy_other settings st closePairs veryDistantPairs q :
  ~ In q closePairs ->
  (calculateEnergy settings st closePairs veryDistantPairs).2 q = st q.
Proof.
  intros Hq. rewrite calculateEnergy_store.
  by destruct (closePairs_loop_stored settings closePairs st st 0%float q
                 (fun q => energy_frame_refl _)) as [_ ->].
Qed.

Lemma veryDistantPair_step_frame st st' :
  (forall q, energy_frame (st q) (st' q)) ->
  forall l acc,
  fold_left (veryDistantPair_step st') l acc =
  fold_left (veryDistantPair_step st) l acc.
Proof.
  intros Hfr l. induction l as [|p l IH]; intros acc; simpl; [done|].
  rewrite IH. f_equal. unfold veryDistantPair_step.
  by destruct (energy_frame_fields _ _ (Hfr p)) as (_&_&_&_&_&_&_&_&_&->&->&_).
Qed.

Lemma pnoTruncation_step_frame st st' :
  (forall q, energy_frame (st q) (st' q)) ->
  forall l acc,
  fold_left (pnoTruncation_step st') l acc =
  fold_left (pnoTruncation_step st) l acc.
Proof.
  intros Hfr l. induction l as [|p l IH]; intros acc; simpl; [done|].
  rewrite IH. f_equal. unfold pnoTruncation_step.
  by destruct (energy_frame_fields _ _ (Hfr p)) as (_&_&_&_&_&_&_&_&->&_).
Qed.

(** The three components in terms of the store on entry. *)
Lemma calculateEnergy_vector settings st closePairs veryDistantPairs :
  (calculateEnergy settings st closePairs veryDistantPairs).1 =
  [ fold_left (fun a p => (a + pairEnergy settings (st p))%float) closePairs 0%float;
    fold_left (veryDistantPair_step st) veryDistantPairs 0%float;
    fold_left (pnoTruncation_step st) closePairs 0%float ].
Proof.
  unfold calculateEnergy.
  pose proof (closePairs_loop_frame settings closePairs st 0%float) as Hfr.
  pose proof (closePairs_loop_sum settings closePairs st st 0%float
                (fun q => energy_frame_refl _)) as Hsum.
  destruct (fold_left (closePair_step settings) closePairs (st, 0%float))
    as [st1 e]. simpl in *. subst e.
  by rewrite (veryDistantPair_step_frame st st1 Hfr),
             (pnoTruncation_step_frame st st1 Hfr).
Qed.

Lemma veryDistantPair_step_unfold st acc p :
  veryDistantPair_step st acc p =
  (acc + (if nonzero (scMP2PairEnergy (st p)) then scMP2PairEnergy (st p)
          else dipolePairEnergy (st p)))%float.
Proof. unfold veryDistantPair_step. by destruct (nonzero _). Qed.

Lemma fold_left_pointwise {A B} (f g : A -> B -> A) (l : list B) :
  (forall a b, f a b = g a b) -> forall a, fold_left f l a = fold_left g l a.
Proof.
  intros H. induction l as [|b l IH]; intros a; simpl; [done|].
  by rewrite H, IH.
Qed.

(** C3 (as amended): [calculateEnergy] returns three components.  The
    first is the sum over the close/distant pairs of
    [ssScaling * ssEnergy + osScaling * osEnergy], without the PNO
    truncation correction; the second is the sum over the very distant
    pairs of the semicanonical MP2 pair energy where it is nonzero and of
    the dipole pair energy otherwise; the third is the sum of [deltaPNO]
    over the close/distant pairs.  All are taken from the pairs as they
    are on entry. *)
Theorem calculateEnergy_components settings st closePairs veryDistantPairs :
  (calculateEnergy settings st closePairs veryDistantPairs).1 =
  [ fold_left
      (fun a p => (a + (ssScaling settings * ssEnergy (st p) +
                        osScaling settings * osEnergy (st p)))%float)
      closePairs 0%float;
    fold_left
      (fun a p => (a + (if nonzero (scMP2PairEnergy (st p))
                        then scMP2PairEnergy (st p)
                        else dipolePairEnergy (st p)))%float)
      veryDistantPairs 0%float;
    fold_left (fun a p => (a + deltaPNO (st p))%float) closePairs 0%float ].
Proof.
  rewrite calculateEnergy_vector.
  by rewrite (fold_left_pointwise _ _ veryDistantPairs
                (veryDistantPair_step_unfold st)).
Qed.

(** C3, the claim as worded fails: for one converged pair with
    [deltaPNO = -0.125] the first component is -0.25, while the sum of the
    pair energies with the PNO correction included, which is also what
    the call stores in the pair, is -0.375. *)
Lemma calculateEnergy_first_component_without_deltaPNO :
  (calculateEnergy (unscaled 1) corrected_store [0] []).1 =
    [(-0.25)%float; 0%float; (-0.125)%float] /\
  sum_of_corrected_pair_energies (unscaled 1) corrected_store [0] =
    (-0.375)%float /\
  lMP2PairEnergy ((calculateEnergy (unscaled 1) corrected_store [0] []).2 0) =
    (-0.375)%float /\
  PrimFloat.eqb (-0.25) (-0.375) = false.
Proof. repeat split; vm_compute; reflexivity. Qed.

(** C6: for every pair of the close/distant list, with the scale factor
    1.0 if i = j and 2.0 otherwise, the same-spin energy is the factor
    times the sum of the coefficient-wise product of [t_ij - t_ij^T] and
    [k_ij], the opposite-spin energy is the factor times the sum of the
    coefficient-wise product of [t_ij] and [k_ij], and the call stores
    [ssScaling * ssEnergy + osScaling * osEnergy + deltaPNO] in the pair's
    energy field. *)
Theorem calculateEnergy_pair_energy settings st closePairs veryDistantPairs p :
  In p closePairs ->
  let pair := st p in
  let factor := if Nat.eqb (i pair) (j pair) then 1%float else 2%float in
  let ss :=
    (factor * sum (cwiseProduct
                     (cwiseDifference (t_ij pair) (transpose (t_ij pair)))
                     (k_ij pair)))%float in
  let os := (factor * sum (cwiseProduct (t_ij pair) (k_ij pair)))%float in
  ssEnergy pair = ss /\ osEnergy pair = os /\
  lMP2PairEnergy ((calculateEnergy settings st closePairs veryDistantPairs).2 p) =
  (ssScaling settings * ss + osScaling settings * os + deltaPNO pair)%float.
Proof.
  intros Hin. cbv zeta. split; [done|]. split; [done|].
  rewrite calculateEnergy_store.
  destruct (closePairs_loop_stored settings closePairs st st 0%float p
              (fun q => energy_frame_refl _)) as [H _].
  by rewrite (H Hin).
Qed.

Lemma calculateEnergy_pair_energy_witness :
  In 0 [0] /\
  lMP2PairEnergy ((calculateEnergy (unscaled 1) corrected_store [0] []).2 0) =
  (1 * (1 * sum (cwiseProduct
                   (cwiseDifference [[(-0.5)%float]] (transpose [[(-0.5)%float]]))
                   [[0.5%float]])) +
   1 * (1 * sum (cwiseProduct [[(-0.5)%float]] [[0.5%float]])) +
   (-0.125))%float.
Proof.
  split; [by left|].
  exact (proj2 (proj2 (calculateEnergy_pair_energy (unscaled 1) corrected_store
                         [0] [] 0 (or_introl eq_refl)))).
Defined.

(** C8: a call of [calculateEnergy] leaves every field of every pair but
    the stored pair energy as it was, in particular the amplitudes, the
    exchange integrals, the uncoupled term, [deltaPNO] and the type tag;
    a pair outside the close/distant list is not written at all. *)
Theorem calculateEnergy_frame_effect settings st closePairs veryDistantPairs q :
  let st' := (calculateEnergy settings st closePairs veryDistantPairs).2 in
  t_ij (st' q) = t_ij (st q) /\ k_ij (st' q) = k_ij (st q) /\
  uncoupledTerm (st' q) = uncoupledTerm (st q) /\
  deltaPNO (st' q) = deltaPNO (st q) /\ type (st' q) = type (st q) /\
  i (st' q) = i (st q) /\ j (st' q) = j (st q) /\
  residual (st' q) = residual (st q) /\
  coupledPairs (st' q) = coupledPairs (st q) /\
  scMP2PairEnergy (st' q) = scMP2PairEnergy (st q) /\
  dipolePairEnergy (st' q) = dipolePairEnergy (st q) /\
  nAuxFunctions (st' q) = nAuxFunctions (st q) /\
  (~ In q closePairs -> st' q = st q).
Proof.
  cbv zeta.
  pose proof (calculateEnergy_frame settings st closePairs veryDistantPairs q) as H.
  apply energy_frame_fields in H.
  destruct H as (Hi & Hj & Hty & Hk & Ht & Hr & Hu & Hc & Hd & Hs & Hdi & Hn).
  repeat split; try done.
  apply calculateEnergy_other.
Qed.

(** C9: a second call of [calculateEnergy] on the same lists, on the
    store that the first call leaves, returns the same three components. *)
Theorem calculateEnergy_twice settings st closePairs veryDistantPairs :
  (calculateEnergy settings
     (calculateEnergy settings st closePairs veryDistantPairs).2
     closePairs veryDistantPairs).1 =
  (calculateEnergy settings st closePairs veryDistantPairs).1.
Proof.
  set (st' := (calculateEnergy settings st closePairs veryDistantPairs).2).
  assert (Hfr : forall q, energy_frame (st q) (st' q))
    by (intros q; apply calculateEnergy_frame).
  rewrite !calculateEnergy_vector.
  rewrite (veryDistantPair_step_frame st st' Hfr),
          (pnoTruncation_step_frame st st' Hfr).
  f_equal. apply fold_left_pointwise. intros a p.
  by rewrite (pairEnergy_frame settings _ _ (Hfr p)).
Qed.

(** * Properties of the coupling sum *)

Lemma kj_term_spec env st i j tid c incs :
  kj_term env st i j tid c incs =
  match kj_contribution env st i j c with
  | Some M => alter (fun m => cwiseDifference m M) tid incs
  | None => incs
  end.
Proof.
  unfold kj_term, kj_contribution, kj_active, subtract_from, amplitudes_kj.
  destruct (getKJPairScreened c) as [kjPair|]; [|done].
  destruct (_ && _); [|done].
  rewrite (Nat.ltb_antisym j (getK c)).
  by destruct (Nat.leb j (getK c)).
Qed.

Lemma ik_term_spec env st i j tid c incs :
  ik_term env st i j tid c incs =
  match ik_contribution env st i j c with
  | Some M => alter (fun m => cwiseDifference m M) tid incs
  | None => incs
  end.
Proof.
  unfold ik_term, ik_contribution, ik_active, subtract_from, amplitudes_ik.
  destruct (getIKPairScreened c) as [ikPair|]; [|done].
  destruct (_ && _); [|done].
  rewrite (Nat.ltb_antisym (getK c) i).
  by destruct (Nat.leb (getK c) i).
Qed.

(** One iteration of the coupling loop subtracts the contributions of its
    coupling set from the accumulator of its thread. *)
Lemma coupling_body_spec env st i j index c incs :
  coupling_body env st i j index c incs =
  alter (fold_left cwiseDifference (contributions env st i j c))
        (omp_get_thread_num env index) incs.
Proof.
  unfold coupling_body, contributions.
  rewrite ik_term_spec, kj_term_spec.
  destruct (kj_contribution env st i j c) as [M1|],
           (ik_contribution env st i j c) as [M2|]; simpl.
  - by rewrite list_alter_alter_eq.
  - done.
  - done.
  - symmetry. by apply list_alter_id.
Qed.

(** At the end of the coupling loop every accumulator has lost the
    contributions of the iterations of its thread, in increasing order. *)
Lemma coupling_loop_lookup env st i j sets : forall index incs tid,
  coupling_loop env st i j index sets incs !! tid =
  fold_left cwiseDifference (thread_contributions env st i j index sets tid)
    <$> incs !! tid.
Proof.
  induction sets as [|c rest IH]; intros index incs tid; simpl.
  - by destruct (incs !! tid).
  - rewrite IH, coupling_body_spec, list_lookup_alter.
    destruct (decide (omp_get_thread_num env index = tid)) as [->|Hne].
    + rewrite Nat.eqb_refl.
      destruct (incs !! tid); simpl; [|done].
      by rewrite fold_left_app.
    + apply Nat.eqb_neq in Hne. rewrite Hne. done.
Qed.

Lemma coupling_loop_accumulators env st pair :
  coupling_loop env st (i pair) (j pair) 0 (coupledPairs pair)
    (initial_increments env
       (cwiseSum (k_ij pair) (cwiseProduct (uncoupledTerm pair) (t_ij pair)))) =
  map (thread_accumulator env st pair) (seq 0 (S (omp_get_max_threads env - 1))).
Proof.
  apply list_eq. intros tid.
  rewrite coupling_loop_lookup.
  change (map ?f ?l) with (f <$> l).
  rewrite list_lookup_fmap. unfold initial_increments.
  destruct tid as [|t]; [done|].
  simpl. rewrite <- (fmap_S_seq 0).
  rewrite list_lookup_fmap.
  destruct (decide (t < omp_get_max_threads env - 1)) as [Hlt|Hge].
  - by rewrite lookup_replicate_2, lookup_seq_lt.
  - rewrite lookup_seq_ge by lia.
    by rewrite (proj1 (lookup_replicate_None _ _ _)) by lia.
Qed.

(** Once [pair->residual] holds the exchange integrals, the local
    residual of the program is the residual of the reference. *)
Lemma local_residual_spec env st p :
  residual (st p) = k_ij (st p) ->
  local_residual env st p = coupled_residual env st (st p).
Proof.
  intros H. unfold local_residual, coupled_residual.
  by rewrite H, coupling_loop_accumulators.
Qed.

(** ** What the coupling sum depends on *)

Lemma kj_contribution_ext env st st' i j c :
  (forall q, q ∈ set_reads env i j c -> t_ij (st' q) = t_ij (st q)) ->
  kj_contribution env st' i j c = kj_contribution env st i j c.
Proof.
  unfold set_reads, kj_contribution. intros H.
  destruct (getKJPairScreened c) as [q|]; [|done].
  destruct (kj_active env i c); [|done].
  rewrite (H q); [done|]. apply elem_of_app. left. by apply list_elem_of_singleton.
Qed.

Lemma ik_contribution_ext env st st' i j c :
  (forall q, q ∈ set_reads env i j c -> t_ij (st' q) = t_ij (st q)) ->
  ik_contribution env st' i j c = ik_contribution env st i j c.
Proof.
  unfold set_reads, ik_contribution. intros H.
  destruct (getIKPairScreened c) as [q|]; [|done].
  destruct (ik_active env j c); [|done].
  rewrite (H q); [done|]. apply elem_of_app. right. by apply list_elem_of_singleton.
Qed.

Lemma thread_contributions_ext env st st' i j sets :
  (forall q, q ∈ flat_map (set_reads env i j) sets ->
             t_ij (st' q) = t_ij (st q)) ->
  forall index tid,
  thread_contributions env st' i j index sets tid =
  thread_contributions env st i j index sets tid.
Proof.
  induction sets as [|c rest IH]; intros H index tid; simpl; [done|].
  simpl in H. rewrite IH.
  - unfold contributions.
    rewrite (kj_contribution_ext env st st'), (ik_contribution_ext env st st');
      [done| |]; intros q Hq; apply H, elem_of_app; by left.
  - intros q Hq. apply H, elem_of_app. by right.
Qed.

(** The residual of a pair depends on the store through the amplitudes of
    the companions it reads only, and on the pair through its indices,
    integrals, uncoupled term, amplitudes and coupling sets. *)
Lemma coupled_residual_ext env st st' pair pair' :
  i pair' = i pair -> j pair' = j pair -> k_ij pair' = k_ij pair ->
  uncoupledTerm pair' = uncoupledTerm pair -> t_ij pair' = t_ij pair ->
  coupledPairs pair' = coupledPairs pair ->
  (forall q, q ∈ pair_reads env pair -> t_ij (st' q) = t_ij (st q)) ->
  coupled_residual env st' pair' = coupled_residual env st pair.
Proof.
  intros Hi Hj Hk Hu Ht Hc Hreads.
  assert (Hacc : forall tid,
            thread_accumulator env st' pair' tid = thread_accumulator env st pair tid).
  { intros tid. unfold thread_accumulator. rewrite Hi, Hj, Hk, Hu, Ht, Hc.
    by rewrite (thread_contributions_ext env st st' _ _ _ Hreads). }
  unfold coupled_residual. rewrite Hacc. f_equal.
  apply map_ext. intros tid. apply Hacc.
Qed.

(** * Properties of a sweep *)

Lemma sweep_pair_skip env st lr p :
  is_VERY_DISTANT (type (st p)) = true -> sweep_pair env (st, lr) p = (st, lr).
Proof. intros H. unfold sweep_pair. by rewrite H. Qed.

Lemma sweep_pair_apply_update env st lr p :
  sweep_pair env (st, lr) p =
  apply_update (st, lr) (p, coupled_residual env st (st p)).
Proof.
  unfold sweep_pair, apply_update.
  destruct (is_VERY_DISTANT (type (st p))); [done|].
  rewrite local_residual_spec by (by rewrite fn_lookup_insert).
  rewrite fn_lookup_insert.
  rewrite (coupled_residual_ext env st
             (<[p:=set_residual (k_ij (st p)) (st p)]> st) (st p)
             (set_residual (k_ij (st p)) (st p))); try done.
  intros q _. destruct (decide (p = q)) as [->|Hne].
  - by rewrite fn_lookup_insert.
  - by rewrite fn_lookup_insert_ne.
Qed.

Lemma apply_update_skip st lr p r :
  is_VERY_DISTANT (type (st p)) = true -> apply_update (st, lr) (p, r) = (st, lr).
Proof. intros H. unfold apply_update. by rewrite H. Qed.

(** The effect of the update of one pair that is not very distant. *)
Lemma apply_update_effect st lr p r :
  is_VERY_DISTANT (type (st p)) = false ->
  (apply_update (st, lr) (p, r)).1 p =
    set_t_ij (cwiseDifference (t_ij (st p)) (cwiseQuotient r (uncoupledTerm (st p))))
             (set_residual (k_ij (st p)) (st p)) /\
  (forall q, q ≠ p -> (apply_update (st, lr) (p, r)).1 q = st q) /\
  (apply_update (st, lr) (p, r)).2 =
    if gt (absMaxCoeff r) lr then absMaxCoeff r else lr.
Proof.
  intros H. unfold apply_update. rewrite H. simpl.
  rewrite !fn_lookup_insert. repeat split.
  intros q Hq. by rewrite !fn_lookup_insert_ne.
Qed.

Lemma thread_contributions_single env st i j sets :
  (forall index, omp_get_thread_num env index = 0) ->
  forall index,
  thread_contributions env st i j index sets 0 =
  flat_map (contributions env st i j) sets.
Proof.
  intros H. induction sets as [|c rest IH]; intros index; simpl; [done|].
  by rewrite H, IH.
Qed.

(** C1: in a sweep, for a pair that is not very distant, the residual is
    [k_ij + uncoupledTerm ⊙ t_ij] minus the accumulated contributions of
    the coupling sum (thread by thread, the accumulators then added up;
    with one thread: the contributions subtracted one after the other),
    the pair's amplitudes become [t_ij - residual / uncoupledTerm]
    coefficient-wise, no other pair changes, and the largest residual so
    far is raised to the largest absolute coefficient of the residual. *)
Theorem sweep_pair_residual_and_update env st largestResidual p :
  is_VERY_DISTANT (type (st p)) = false ->
  let pair := st p in
  let residual := coupled_residual env st pair in
  let after := sweep_pair env (st, largestResidual) p in
  after.1 p =
    set_t_ij (cwiseDifference (t_ij pair)
                (cwiseQuotient residual (uncoupledTerm pair)))
             (set_residual (k_ij pair) pair) /\
  (forall q, q ≠ p -> after.1 q = st q) /\
  after.2 = (if gt (absMaxCoeff residual) largestResidual
             then absMaxCoeff residual else largestResidual) /\
  ((forall index, omp_get_thread_num env index = 0) ->
   omp_get_max_threads env <= 1 ->
   residual =
   fold_left cwiseDifference
     (flat_map (contributions env st (i pair) (j pair)) (coupledPairs pair))
     (cwiseSum (k_ij pair) (cwiseProduct (uncoupledTerm pair) (t_ij pair)))).
Proof.
  intros Htype. cbv zeta. rewrite sweep_pair_apply_update.
  destruct (apply_update_effect st largestResidual p
              (coupled_residual env st (st p)) Htype) as (H1 & H2 & H3).
  repeat split; try done.
  intros Hthread Hone. unfold coupled_residual, thread_accumulator.
  replace (omp_get_max_threads env - 1) with 0 by lia. simpl.
  by rewrite thread_contributions_single.
Qed.

Lemma sweep_pair_residual_and_update_witness :
  is_VERY_DISTANT (type (relaxed_store 1)) = false /\
  t_ij ((sweep_pair two_threads (relaxed_store, 0%float) 1).1 1) = [[(-1)%float]].
Proof.
  split; [reflexivity|].
  rewrite (proj1 (sweep_pair_residual_and_update two_threads relaxed_store
                    0%float 1 eq_refl)).
  vm_compute. reflexivity.
Defined.

(** C4 (as amended): a coupling set with the intermediate index k changes
    the residual of the pair (i,j) through its (k,j) companion exactly
    when that companion exists, [|f_MO(i,k)|] is at least the cutoff and
    [i ≠ k], and through its (i,k) companion exactly when that companion
    exists, [|f_MO(j,k)|] is at least the cutoff and [j ≠ k]; a missing
    companion contributes nothing.  The contribution subtracted is
    [f_MO(i,k) * (S * t * S^T)], respectively [f_MO(k,j) * (S * t * S^T)],
    where the companion's amplitudes are transposed exactly when [k < j]
    for the (k,j) companion and when [i < k] for the (i,k) companion: when
    the companion's storage order, first index at least the second, is
    the reverse of the coupling direction. *)
Theorem coupling_set_contribution env st i j index c increments :
  let k := getK c in
  coupling_body env st i j index c increments =
    alter (fold_left cwiseDifference
             (option_list (kj_contribution env st i j c) ++
              option_list (ik_contribution env st i j c)))
          (omp_get_thread_num env index) increments /\
  (forall M, kj_contribution env st i j c = Some M <->
     exists kjPair, getKJPairScreened c = Some kjPair /\
       fabs_ge (coeff (f_MO env) i k) (f_cut env) = true /\ i ≠ k /\
       M = scale (coeff (f_MO env) i k)
             (product (product (getS_ij_kj c)
                         (if Nat.ltb k j then transpose (t_ij (st kjPair))
                          else t_ij (st kjPair)))
                      (transpose (getS_ij_kj c)))) /\
  (forall M, ik_contribution env st i j c = Some M <->
     exists ikPair, getIKPairScreened c = Some ikPair /\
       fabs_ge (coeff (f_MO env) j k) (f_cut env) = true /\ j ≠ k /\
       M = scale (coeff (f_MO env) k j)
             (product (product (getS_ij_ik c)
                         (if Nat.ltb i k then transpose (t_ij (st ikPair))
                          else t_ij (st ikPair)))
                      (transpose (getS_ij_ik c)))) /\
  (getKJPairScreened c = None -> getIKPairScreened c = None ->
   coupling_body env st i j index c increments = increments).
Proof.
  cbv zeta. split; [apply coupling_body_spec|]. split; [|split].
  - intros M. unfold kj_contribution, kj_active, SxTxS.
    destruct (getKJPairScreened c) as [kjPair|].
    + split.
      * intros H.
        destruct (fabs_ge _ _) eqn:Hf, (Nat.eqb i (getK c)) eqn:Hik;
          simpl in H; try discriminate.
        injection H as <-. exists kjPair. repeat split.
        by apply Nat.eqb_neq.
      * intros (q & [= <-] & Hq & Hne & ->).
        apply Nat.eqb_neq in Hne. by rewrite Hq, Hne.
    + split; [done | by intros (q & Hq & _)].
  - intros M. unfold ik_contribution, ik_active, SxTxS.
    destruct (getIKPairScreened c) as [ikPair|].
    + split.
      * intros H.
        destruct (fabs_ge _ _) eqn:Hf, (Nat.eqb j (getK c)) eqn:Hjk;
          simpl in H; try discriminate.
        injection H as <-. exists ikPair. repeat split.
        by apply Nat.eqb_neq.
      * intros (q & [= <-] & Hq & Hne & ->).
        apply Nat.eqb_neq in Hne. by rewrite Hq, Hne.
    + split; [done | by intros (q & Hq & _)].
  - intros Hkj Hik. unfold coupling_body, kj_term, ik_term.
    by rewrite Hkj, Hik.
Qed.

(** C4, the claim as worded fails: the specification stores pairs with
    [i <= j] and transposes when that order is the reverse of the coupling
    direction.  For the pair (1,1) and k = 0 the companion is stored as
    (0,1), which is the coupling direction (k,j) itself, so its
    amplitudes would enter as they are; the program transposes them
    ([k >= j] is false). *)
Lemma transposition_follows_ge_storage :
  reversed_in_le_storage 0 1 = false /\
  kj_contribution_le_storage two_orbitals asymmetric_store 1 1 coupling_11_0 =
    Some [[0%float; 1%float]; [0%float; 0%float]] /\
  kj_contribution two_orbitals asymmetric_store 1 1 coupling_11_0 =
    Some [[0%float; 0%float]; [1%float; 0%float]] /\
  kj_term two_orbitals asymmetric_store 1 1 0 coupling_11_0 [Zero 2 2] =
    [[[0%float; 0%float]; [(-1)%float; 0%float]]] /\
  PrimFloat.eqb 1 0 = false.
Proof. repeat split; vm_compute; reflexivity. Qed.

Lemma apply_update_other st lr p r q :
  q ≠ p -> (apply_update (st, lr) (p, r)).1 q = st q.
Proof.
  intros Hq. destruct (is_VERY_DISTANT (type (st p))) eqn:H.
  - by rewrite apply_update_skip.
  - by apply apply_update_effect.
Qed.

(** A sweep processes a pair in the store that the pairs before it have
    left: the companions processed before it are read with the amplitudes
    of the current cycle. *)
Lemma sweep_reads_current_store env st before p after :
  sweep env st (before ++ p :: after) =
  fold_left (sweep_pair env) after
    (apply_update (sweep env st before)
       (p, coupled_residual env (sweep env st before).1
             ((sweep env st before).1 p))).
Proof.
  unfold sweep. rewrite fold_left_app.
  destruct (fold_left (sweep_pair env) before (st, 0%float)) as [st1 lr1].
  change (fold_left (sweep_pair env) (p :: after) (st1, lr1))
    with (fold_left (sweep_pair env) after (sweep_pair env (st1, lr1) p)).
  by rewrite sweep_pair_apply_update.
Qed.

Lemma sweep_jacobi_from env st0 pairs : forall processed st lr,
  (forall q, q ∉ processed -> st q = st0 q) ->
  forward_only env st0 processed pairs ->
  fold_left (sweep_pair env) pairs (st, lr) =
  fold_left apply_update
    (zip pairs (map (fun p => coupled_residual env st0 (st0 p)) pairs)) (st, lr).
Proof.
  induction pairs as [|p rest IH]; intros processed st lr Hsame Hfwd; [done|].
  destruct Hfwd as (Hp & Hreads & Hrest).
  change (fold_left (sweep_pair env) rest (sweep_pair env (st, lr) p) =
          fold_left apply_update
            (zip rest (map (fun p => coupled_residual env st0 (st0 p)) rest))
            (apply_update (st, lr) (p, coupled_residual env st0 (st0 p)))).
  rewrite sweep_pair_apply_update.
  assert (Hres : coupled_residual env st (st p) =
                 coupled_residual env st0 (st0 p)).
  { rewrite (Hsame p Hp). apply coupled_residual_ext; try done.
    intros q Hq. f_equal. by apply Hsame, Hreads. }
  rewrite Hres.
  destruct (apply_update (st, lr) (p, coupled_residual env st0 (st0 p)))
    as [st1 lr1] eqn:E.
  apply (IH (p :: processed)); [|done].
  intros q Hq. apply not_elem_of_cons in Hq as [Hne Hq].
  rewrite <- (Hsame q Hq).
  pose proof (apply_update_other st lr p
                (coupled_residual env st0 (st0 p)) q Hne) as H.
  by rewrite E in H.
Qed.

(** C5 (as amended): the sweep of a cycle equals the two-phase reference,
    which first computes every pair's residual from the amplitudes at the
    start of the cycle and then applies every update, whenever no pair
    occurs twice in the sweep and no pair reads the amplitudes of a pair
    that the sweep processes before it. *)
Theorem sweep_is_jacobi_when_forward_only env st orbitalPairs :
  forward_only env st [] orbitalPairs ->
  sweep env st orbitalPairs = jacobi_sweep env st orbitalPairs.
Proof.
  intros H. unfold sweep, jacobi_sweep.
  by apply (sweep_jacobi_from env st orbitalPairs []).
Qed.

Lemma sweep_is_jacobi_when_forward_only_witness :
  forward_only two_orbitals coupled_store [] [1; 0] /\
  sweep two_orbitals coupled_store [1; 0] =
  jacobi_sweep two_orbitals coupled_store [1; 0].
Proof.
  assert (H : forward_only two_orbitals coupled_store [] [1; 0]).
  { simpl. repeat split.
    - apply not_elem_of_nil.
    - intros q _. apply not_elem_of_nil.
    - by intros ?%list_elem_of_singleton.
    - intros q Hq. by apply elem_of_nil in Hq. }
  split; [exact H|].
  exact (sweep_is_jacobi_when_forward_only two_orbitals coupled_store [1; 0] H).
Defined.

(** C5, the claim as worded fails: in the sweep over the pairs (0,0) and
    (1,0) the pair (1,0) reads the amplitudes that (0,0) has just been
    given in the same sweep, -1 where the cycle started from 0.  Its
    residual is 1 and its new amplitude -1; the two-phase reference finds
    the residual 0 and leaves the amplitude 0. *)
Lemma sweep_reads_updated_amplitudes :
  t_ij ((sweep two_orbitals coupled_store [0; 1]).1 0) = [[(-1)%float]] /\
  t_ij ((sweep two_orbitals coupled_store [0; 1]).1 1) = [[(-1)%float]] /\
  t_ij ((jacobi_sweep two_orbitals coupled_store [0; 1]).1 1) = [[0%float]] /\
  PrimFloat.eqb (-1) 0 = false.
Proof. repeat split; vm_compute; reflexivity. Qed.

(** ** What a sweep writes *)

Lemma apply_update_fields st lr p r q :
  k_ij ((apply_update (st, lr) (p, r)).1 q) = k_ij (st q) /\
  type ((apply_update (st, lr) (p, r)).1 q) = type (st q) /\
  (residual ((apply_update (st, lr) (p, r)).1 q) = residual (st q) \/
   residual ((apply_update (st, lr) (p, r)).1 q) = k_ij (st q)).
Proof.
  destruct (decide (q = p)) as [->|Hne].
  - destruct (is_VERY_DISTANT (type (st p))) eqn:H.
    + rewrite apply_update_skip by done. auto.
    + destruct (apply_update_effect st lr p r H) as (-> & _). simpl. auto.
  - rewrite apply_update_other by done. auto.
Qed.

Lemma sweep_pair_fields env st lr p q :
  k_ij ((sweep_pair env (st, lr) p).1 q) = k_ij (st q) /\
  type ((sweep_pair env (st, lr) p).1 q) = type (st q) /\
  (residual ((sweep_pair env (st, lr) p).1 q) = residual (st q) \/
   residual ((sweep_pair env (st, lr) p).1 q) = k_ij (st q)).
Proof. rewrite sweep_pair_apply_update. apply apply_update_fields. Qed.

Lemma sweep_pair_other env st lr p q :
  q ≠ p -> (sweep_pair env (st, lr) p).1 q = st q.
Proof. rewrite sweep_pair_apply_update. apply apply_update_other. Qed.

Lemma sweep_loop_cons env p l st lr :
  fold_left (sweep_pair env) (p :: l) (st, lr) =
  fold_left (sweep_pair env) l
    ((sweep_pair env (st, lr) p).1, (sweep_pair env (st, lr) p).2).
Proof.
  change (fold_left (sweep_pair env) (p :: l) (st, lr))
    with (fold_left (sweep_pair env) l (sweep_pair env (st, lr) p)).
  by destruct (sweep_pair env (st, lr) p).
Qed.

(** A sweep keeps the exchange integrals and the type tag of every pair. *)
Lemma sweep_loop_fields env l : forall st lr q,
  k_ij ((fold_left (sweep_pair env) l (st, lr)).1 q) = k_ij (st q) /\
  type ((fold_left (sweep_pair env) l (st, lr)).1 q) = type (st q).
Proof.
  induction l as [|p l IH]; intros st lr q; [done|].
  rewrite sweep_loop_cons.
  destruct (IH (sweep_pair env (st, lr) p).1 (sweep_pair env (st, lr) p).2 q)
    as [-> ->].
  destruct (sweep_pair_fields env st lr p q) as (-> & -> & _). done.
Qed.

(** A residual field that holds the exchange integrals keeps doing so. *)
Lemma sweep_loop_residual_kept env l : forall st lr q,
  residual (st q) = k_ij (st q) ->
  residual ((fold_left (sweep_pair env) l (st, lr)).1 q) =
  k_ij ((fold_left (sweep_pair env) l (st, lr)).1 q).
Proof.
  induction l as [|p l IH]; intros st lr q H; [done|].
  rewrite sweep_loop_cons. apply IH.
  destruct (sweep_pair_fields env st lr p q) as (-> & _ & [-> | ->]); done.
Qed.

(** A sweep leaves the exchange integrals in the residual field of every
    pair of its list that is not very distant. *)
Lemma sweep_loop_residual_set env l : forall st lr p,
  In p l -> is_VERY_DISTANT (type (st p)) = false ->
  residual ((fold_left (sweep_pair env) l (st, lr)).1 p) =
  k_ij ((fold_left (sweep_pair env) l (st, lr)).1 p).
Proof.
  induction l as [|p0 l IH]; intros st lr p Hin Hty; [done|].
  rewrite sweep_loop_cons.
  destruct Hin as [->|Hin].
  - apply sweep_loop_residual_kept.
    rewrite sweep_pair_apply_update.
    by destruct (apply_update_effect st lr p
                   (coupled_residual env st (st p)) Hty) as (-> & _).
  - apply IH; [done|].
    by destruct (sweep_pair_fields env st lr p0 p) as (_ & -> & _).
Qed.

(** A sweep writes the pairs of its list only. *)
Lemma sweep_loop_other env l : forall st lr q,
  ~ In q l -> (fold_left (sweep_pair env) l (st, lr)).1 q = st q.
Proof.
  induction l as [|p l IH]; intros st lr q Hq; [done|].
  rewrite sweep_loop_cons, IH by (simpl in Hq; tauto).
  apply sweep_pair_other. simpl in Hq. intros ->. tauto.
Qed.

(** A very distant pair is skipped: nothing of it is written. *)
Lemma sweep_loop_very_distant env l : forall st lr q,
  is_VERY_DISTANT (type (st q)) = true ->
  (fold_left (sweep_pair env) l (st, lr)).1 q = st q.
Proof.
  induction l as [|p l IH]; intros st lr q Hq; [done|].
  rewrite sweep_loop_cons.
  assert (Hstep : (sweep_pair env (st, lr) p).1 q = st q).
  { destruct (decide (q = p)) as [->|Hne].
    - by rewrite sweep_pair_skip.
    - by apply sweep_pair_other. }
  rewrite IH; [done|]. by rewrite Hstep.
Qed.

(** ** The partition of the pair list *)

Lemma split_pairs_from st pairs : forall closePairs veryDistantPairs,
  fold_left (classify st) pairs (closePairs, veryDistantPairs) =
  (closePairs ++
     List.filter (fun p => negb (is_VERY_DISTANT (type (st p)))) pairs,
   veryDistantPairs ++
     List.filter (fun p => is_VERY_DISTANT (type (st p))) pairs).
Proof.
  induction pairs as [|p l IH]; intros cl vd; simpl.
  - by rewrite !app_nil_r.
  - destruct (is_VERY_DISTANT (type (st p))); simpl;
      rewrite IH; by rewrite <- app_assoc.
Qed.

Lemma split_pairs_filter st pairs :
  split_pairs st pairs =
  (List.filter (fun p => negb (is_VERY_DISTANT (type (st p)))) pairs,
   List.filter (fun p => is_VERY_DISTANT (type (st p))) pairs).
Proof. unfold split_pairs. by rewrite split_pairs_from. Qed.

Lemma filter_partition_Permutation {A} (f : A -> bool) (l : list A) :
  Permutation l (List.filter (fun x => negb (f x)) l ++ List.filter f l).
Proof.
  induction l as [|x l IH]; simpl; [done|].
  destruct (f x); simpl.
  - by apply Permutation_cons_app.
  - by constructor.
Qed.

(** * Properties of the optimization loop *)

Section OptimizationProperties.

Variable DIIS : Type.
Variable diis_extrapolate : DIIS -> list (Matrix * Matrix) -> DIIS * list Matrix.
Variable env : Environment.
Variable settings : LocalMP2Settings.

(** ** What the accelerator writes *)

Lemma write_amplitude_fields st pt q :
  residual (write_amplitude st pt q) = residual (st q) /\
  k_ij (write_amplitude st pt q) = k_ij (st q) /\
  type (write_amplitude st pt q) = type (st q).
Proof.
  unfold write_amplitude. destruct (decide (pt.1 = q)) as [<-|Hne].
  - by rewrite fn_lookup_insert.
  - by rewrite fn_lookup_insert_ne.
Qed.

Lemma write_amplitudes_fields l : forall st q,
  residual (fold_left write_amplitude l st q) = residual (st q) /\
  k_ij (fold_left write_amplitude l st q) = k_ij (st q) /\
  type (fold_left write_amplitude l st q) = type (st q).
Proof.
  induction l as [|pt l IH]; intros st q; simpl; [done|].
  destruct (IH (write_amplitude st pt) q) as (-> & -> & ->).
  apply write_amplitude_fields.
Qed.

Lemma write_amplitudes_other pairs : forall amplitudes st q,
  ~ In q pairs ->
  fold_left write_amplitude (zip pairs amplitudes) st q = st q.
Proof.
  induction pairs as [|p l IH]; intros amplitudes st q Hq; [done|].
  destruct amplitudes as [|m ms]; [done|]. simpl in *.
  rewrite IH by tauto. unfold write_amplitude. simpl.
  rewrite fn_lookup_insert_ne; [done|]. intros ->. tauto.
Qed.

Lemma diis_optimize_store diis st orbitalPairs :
  (diis_optimize DIIS diis_extrapolate diis st orbitalPairs).2 =
  fold_left write_amplitude
    (zip orbitalPairs
       (diis_extrapolate diis
          (map (fun p => (t_ij (st p), residual (st p))) orbitalPairs)).2)
    st.
Proof. unfold diis_optimize. by destruct (diis_extrapolate _ _). Qed.

(** ** One cycle *)

Lemma cycle_body_spec st diis orbitalPairs veryDistantPairs :
  let swept := sweep env st orbitalPairs in
  let st2 := (calculateEnergy settings swept.1 orbitalPairs veryDistantPairs).2 in
  let accelerated :=
    if gt (diisStartResidual (getSettings env)) swept.2
    then diis_optimize DIIS diis_extrapolate diis st2 orbitalPairs
    else (diis, st2) in
  cycle_body DIIS diis_extrapolate env settings st diis
    orbitalPairs veryDistantPairs =
  (accelerated.2, accelerated.1, swept.2).
Proof.
  cbv zeta. unfold cycle_body.
  destruct (sweep env st orbitalPairs) as [st1 lr]. simpl.
  destruct (calculateEnergy settings st1 orbitalPairs veryDistantPairs)
    as [e st2]. simpl.
  destruct (gt _ lr); [|done].
  by destruct (diis_optimize _ _ _ _ _).
Qed.

(** A cycle keeps the exchange integrals and the type tag of every pair,
    and a residual field that holds the exchange integrals after the
    sweep still holds them at the end of the cycle. *)
Lemma after_sweep_fields st1 diis orbitalPairs veryDistantPairs lr q :
  let st2 := (calculateEnergy settings st1 orbitalPairs veryDistantPairs).2 in
  let accelerated :=
    if gt (diisStartResidual (getSettings env)) lr
    then diis_optimize DIIS diis_extrapolate diis st2 orbitalPairs
    else (diis, st2) in
  residual (accelerated.2 q) = residual (st1 q) /\
  k_ij (accelerated.2 q) = k_ij (st1 q) /\
  type (accelerated.2 q) = type (st1 q).
Proof.
  cbv zeta.
  destruct (energy_frame_fields _ _
              (calculateEnergy_frame settings st1 orbitalPairs veryDistantPairs q))
    as (_ & _ & Hty & Hk & _ & Hr & _).
  destruct (gt _ lr); simpl; [|done].
  rewrite diis_optimize_store.
  destruct (write_amplitudes_fields
              (zip orbitalPairs
                 (diis_extrapolate diis
                    (map (fun p =>
                            (t_ij ((calculateEnergy settings st1 orbitalPairs
                                      veryDistantPairs).2 p),
                             residual ((calculateEnergy settings st1 orbitalPairs
                                          veryDistantPairs).2 p)))
                         orbitalPairs)).2)
              (calculateEnergy settings st1 orbitalPairs veryDistantPairs).2 q)
    as (-> & -> & ->).
  done.
Qed.

(** A cycle writes the pairs of its list only. *)
Lemma cycle_body_other st diis orbitalPairs veryDistantPairs q :
  ~ In q orbitalPairs ->
  (cycle_body DIIS diis_extrapolate env settings st diis
     orbitalPairs veryDistantPairs).1.1 q = st q.
Proof.
  intros Hq. rewrite cycle_body_spec. simpl.
  assert (H2 : (calculateEnergy settings (sweep env st orbitalPairs).1
                  orbitalPairs veryDistantPairs).2 q = st q).
  { rewrite calculateEnergy_other by done. by apply sweep_loop_other. }
  destruct (gt _ _); simpl; [|done].
  by rewrite diis_optimize_store, write_amplitudes_other.
Qed.

(** C10: after a cycle, the residual field of every pair of the list that
    is not very distant holds a copy of the pair's exchange integrals
    [k_ij]: the uncoupled term and the coupling contributions are only
    accumulated in the local residual, which is not written back. *)
Theorem cycle_leaves_exchange_integrals_in_residual_field
    st diis orbitalPairs veryDistantPairs p :
  In p orbitalPairs ->
  is_VERY_DISTANT (type (st p)) = false ->
  let st' := (cycle_body DIIS diis_extrapolate env settings st diis
                orbitalPairs veryDistantPairs).1.1 in
  residual (st' p) = k_ij (st' p) /\ k_ij (st' p) = k_ij (st p).
Proof.
  intros Hin Hty. cbv zeta. rewrite cycle_body_spec. simpl.
  destruct (after_sweep_fields (sweep env st orbitalPairs).1 diis orbitalPairs
              veryDistantPairs (sweep env st orbitalPairs).2 p)
    as (-> & -> & _).
  split.
  - by apply sweep_loop_residual_set.
  - apply sweep_loop_fields.
Qed.

(** ** The loop *)

(** The call writes the pairs of its list only, however it ends. *)
Lemma optimizeAmplitudes_loop_other orbitalPairs veryDistantPairs q :
  ~ In q orbitalPairs ->
  forall fuel st diis lr cycle o,
  optimizeAmplitudes_loop DIIS diis_extrapolate env settings fuel
    orbitalPairs veryDistantPairs st diis lr cycle = Some o ->
  final_store o q = st q.
Proof.
  intros Hq. induction fuel as [|fuel IH]; intros st diis lr cycle o; simpl;
    destruct (gt lr (maxResidual settings)); try discriminate;
    try (by intros [= <-]).
  pose proof (cycle_body_other st diis orbitalPairs veryDistantPairs q Hq) as Hc.
  destruct (cycle_body _ _ _ _ _ _ _ _) as [[st' diis'] lr'].
  simpl in Hc.
  destruct (_ >? _)%Z.
  - intros [= <-]. done.
  - intros H. rewrite (IH _ _ _ _ _ H). done.
Qed.

Lemma fold_left_ext_in {A B} (f g : A -> B -> A) (l : list B) :
  (forall a b, In b l -> f a b = g a b) ->
  forall a, fold_left f l a = fold_left g l a.
Proof.
  induction l as [|b l IH]; intros H a; simpl; [done|].
  rewrite H by (by left). apply IH. intros a' b' Hb. apply H. by right.
Qed.

(** C7: [calculateEnergyCorrection] puts every pair of its list in
    exactly one of two groups, the very distant pairs and all others, so
    that the two groups together are the list (with multiplicities) and
    share no pair.  A very distant pair is skipped by the sweep, and the
    call writes nothing of it, however it ends: very distant pairs enter
    the energy evaluation only, where the second component is
    accumulated from them. *)
Theorem calculateEnergyCorrection_partition fuel diis st pairs :
  let closePairs := (split_pairs st pairs).1 in
  let veryDistantPairs := (split_pairs st pairs).2 in
  closePairs =
    List.filter (fun p => negb (is_VERY_DISTANT (type (st p)))) pairs /\
  veryDistantPairs =
    List.filter (fun p => is_VERY_DISTANT (type (st p))) pairs /\
  Permutation pairs (closePairs ++ veryDistantPairs) /\
  (forall p, ~ (In p closePairs /\ In p veryDistantPairs)) /\
  (forall acc p, is_VERY_DISTANT (type (acc.1 p)) = true ->
                 sweep_pair env acc p = acc) /\
  (forall r q,
     calculateEnergyCorrection DIIS diis_extrapolate env settings fuel diis
       st pairs = Some r ->
     is_VERY_DISTANT (type (st q)) = true ->
     result_store r q = st q) /\
  (forall e st',
     calculateEnergyCorrection DIIS diis_extrapolate env settings fuel diis
       st pairs = Some (inl (e, st')) ->
     nth 1 e 0%float =
     fold_left (veryDistantPair_step st) veryDistantPairs 0%float).
Proof.
  cbv zeta. rewrite split_pairs_filter. simpl.
  set (cl := List.filter (fun p => negb (is_VERY_DISTANT (type (st p)))) pairs).
  set (vd := List.filter (fun p => is_VERY_DISTANT (type (st p))) pairs).
  assert (Hcl : forall q, is_VERY_DISTANT (type (st q)) = true -> ~ In q cl).
  { intros q Hq [_ Hin]%filter_In. by rewrite Hq in Hin. }
  assert (Hvd : forall q, In q vd -> is_VERY_DISTANT (type (st q)) = true).
  { by intros q [_ Hin]%filter_In. }
  split; [done|]. split; [done|].
  split; [apply filter_partition_Permutation|].
  split; [intros p [H1 H2]; by apply (Hcl p (Hvd p H2))|].
  split; [intros [st0 lr] p H; by apply sweep_pair_skip|].
  unfold calculateEnergyCorrection. rewrite split_pairs_filter.
  fold cl vd. unfold optimizeAmplitudes.
  destruct (optimizeAmplitudes_loop _ _ _ _ _ _ _ _ _ _ _) as [o|] eqn:E.
  - split.
    + intros r q Hr Hq.
      pose proof (optimizeAmplitudes_loop_other cl vd q (Hcl q Hq) _ _ _ _ _ _ E)
        as Ho.
      destruct o as [c lr st1|c lr st1]; injection Hr as <-; simpl in *.
      * destruct (calculateEnergy settings st1 cl vd) as [e st2] eqn:Ee.
        pose proof (calculateEnergy_other settings st1 cl vd q (Hcl q Hq)) as H.
        rewrite Ee in H. simpl in H. by rewrite H, Ho.
      * done.
    + intros e st' Hr. destruct o as [c lr st1|c lr st1]; [|done].
      injection Hr as Hr.
      pose proof (calculateEnergy_vector settings st1 cl vd) as Hv.
      rewrite Hr in Hv. simpl in Hv. rewrite Hv. simpl.
      apply fold_left_ext_in. intros a p Hp. unfold veryDistantPair_step.
      pose proof (optimizeAmplitudes_loop_other cl vd p (Hcl p (Hvd p Hp))
                    _ _ _ _ _ _ E) as Ho.
      simpl in Ho. by rewrite Ho.
  - split; [intros r q Hr; discriminate | intros e st' Hr; discriminate].
Qed.

Lemma cycle_counter_step cycle :
  (1 <= maxCycles settings < UINT_MAX_plus_1)%Z ->
  (0 <= cycle < maxCycles settings)%Z ->
  ((cycle + 1) mod UINT_MAX_plus_1 = cycle + 1)%Z /\
  ((maxCycles settings - 1) mod UINT_MAX_plus_1 = maxCycles settings - 1)%Z.
Proof.
  unfold UINT_MAX_plus_1. intros HM Hc.
  split; apply Z.mod_small; lia.
Qed.

(** With [maxCycles] between 1 and [UINT_MAX], a loop that has run fewer
    than [maxCycles] cycles ends within the remaining ones. *)
Lemma optimizeAmplitudes_loop_ends orbitalPairs veryDistantPairs :
  (1 <= maxCycles settings < UINT_MAX_plus_1)%Z ->
  forall fuel st diis lr cycle,
  (0 <= cycle < maxCycles settings)%Z ->
  (maxCycles settings - cycle <= Z.of_nat fuel)%Z ->
  exists o,
    optimizeAmplitudes_loop DIIS diis_extrapolate env settings fuel
      orbitalPairs veryDistantPairs st diis lr cycle = Some o.
Proof.
  intros HM. induction fuel as [|fuel IH]; intros st diis lr cycle Hc Hfuel;
    [lia|].
  simpl. destruct (gt lr (maxResidual settings)); [|by eexists].
  destruct (cycle_body _ _ _ _ _ _ _ _) as [[st' diis'] lr'].
  destruct (cycle_counter_step cycle HM Hc) as [-> ->].
  rewrite Z.gtb_ltb.
  destruct (Z.ltb_spec (maxCycles settings - 1) (cycle + 1)); [by eexists|].
  apply IH; lia.
Qed.

(** How the loop can end: it returns only with the loop condition false
    and fewer than [maxCycles] cycles counted, and it throws only with
    the counter at [maxCycles]. *)
Lemma optimizeAmplitudes_loop_outcome orbitalPairs veryDistantPairs :
  (1 <= maxCycles settings < UINT_MAX_plus_1)%Z ->
  forall fuel st diis lr cycle o,
  (0 <= cycle < maxCycles settings)%Z ->
  optimizeAmplitudes_loop DIIS diis_extrapolate env settings fuel
    orbitalPairs veryDistantPairs st diis lr cycle = Some o ->
  match o with
  | Converged c lr' _ =>
      (cycle <= c < maxCycles settings)%Z /\
      gt lr' (maxResidual settings) = false
  | SerenityError c _ _ => c = maxCycles settings
  end.
Proof.
  intros HM. induction fuel as [|fuel IH]; intros st diis lr cycle o Hc; simpl;
    destruct (gt lr (maxResidual settings)) eqn:Hgt; try discriminate;
    try (intros [= <-]; split; [lia|done]).
  destruct (cycle_body _ _ _ _ _ _ _ _) as [[st' diis'] lr'].
  destruct (cycle_counter_step cycle HM Hc) as [-> ->].
  rewrite Z.gtb_ltb.
  destruct (Z.ltb_spec (maxCycles settings - 1) (cycle + 1)).
  - intros [= <-]. lia.
  - intros Hloop. apply IH in Hloop; [|lia].
    destruct o; [|done]. destruct Hloop. split; [lia|done].
Qed.

(** Termination: with [maxCycles] between 1 and [UINT_MAX],
    [optimizeAmplitudes] ends after at most [maxCycles] cycles: it
    returns or it throws. *)
Theorem optimizeAmplitudes_ends fuel diis st orbitalPairs veryDistantPairs :
  (1 <= maxCycles settings < UINT_MAX_plus_1)%Z ->
  (maxCycles settings <= Z.of_nat fuel)%Z ->
  exists o,
    optimizeAmplitudes DIIS diis_extrapolate env settings fuel diis st
      orbitalPairs veryDistantPairs = Some o.
Proof.
  intros HM Hfuel. unfold optimizeAmplitudes.
  apply optimizeAmplitudes_loop_ends; [done|lia|lia].
Qed.

(** The two ways out of [optimizeAmplitudes]: a normal return has counted
    fewer than [maxCycles] cycles and its last [largestResidual] is not
    above [maxResidual]; the error is thrown with the counter at
    [maxCycles], whatever the residual of that cycle. *)
Theorem optimizeAmplitudes_outcome fuel diis st orbitalPairs veryDistantPairs o :
  (1 <= maxCycles settings < UINT_MAX_plus_1)%Z ->
  optimizeAmplitudes DIIS diis_extrapolate env settings fuel diis st
    orbitalPairs veryDistantPairs = Some o ->
  match o with
  | Converged c lr _ =>
      (0 <= c < maxCycles settings)%Z /\ gt lr (maxResidual settings) = false
  | SerenityError c _ _ => c = maxCycles settings
  end.
Proof.
  intros HM H. unfold optimizeAmplitudes in H.
  apply (optimizeAmplitudes_loop_outcome orbitalPairs veryDistantPairs HM
           fuel st diis 10%float 0%Z o); [lia|done].
Qed.

(** With [maxCycles = 1] and a threshold below the initial
    [largestResidual = 10], the call throws after its first cycle,
    whatever residual that cycle has found. *)
Theorem optimizeAmplitudes_single_cycle_throws
    fuel diis st orbitalPairs veryDistantPairs :
  maxCycles settings = 1%Z ->
  gt 10%float (maxResidual settings) = true ->
  optimizeAmplitudes DIIS diis_extrapolate env settings (S fuel) diis st
    orbitalPairs veryDistantPairs =
  Some (SerenityError 1
          (cycle_body DIIS diis_extrapolate env settings st diis
             orbitalPairs veryDistantPairs).2
          (cycle_body DIIS diis_extrapolate env settings st diis
             orbitalPairs veryDistantPairs).1.1).
Proof.
  intros HM Hgt. unfold optimizeAmplitudes. simpl. rewrite Hgt, HM.
  by destruct (cycle_body _ _ _ _ _ _ _ _) as [[st' diis'] lr'].
Qed.

End OptimizationProperties.

(** * The statements on the example systems *)

Lemma cycle_leaves_exchange_integrals_in_residual_field_witness :
  In 1 [0; 1] /\
  is_VERY_DISTANT (type (relaxed_store 1)) = false /\
  residual ((cycle_body unit idle_diis two_orbitals (unscaled 5)
               relaxed_store tt [0; 1] []).1.1 1) = [[0%float]] /\
  (cycle_body unit idle_diis two_orbitals (unscaled 5)
     relaxed_store tt [0; 1] []).2 = 1%float.
Proof.
  split; [right; by left|]. split; [reflexivity|]. split.
  - destruct (cycle_leaves_exchange_integrals_in_residual_field
                unit idle_diis two_orbitals (unscaled 5) relaxed_store tt
                [0; 1] [] 1 (or_intror (or_introl eq_refl)) eq_refl)
      as [-> ->].
    reflexivity.
  - vm_compute. reflexivity.
Defined.

(** C2, the program against the claim: the single uncoupled pair with
    [maxResidual] at 1e-5 finds the residual 0.5 in its first cycle and
    the residual 0 in its second.  With [maxCycles = 2] the call throws
    after the second cycle, "NOT CONVERGED", although the largest
    residual of that cycle, 0, is not above the threshold; with
    [maxCycles = 3] the same two cycles end in a normal return with the
    same amplitudes. *)
Theorem optimizeAmplitudes_throws_on_converged_last_cycle :
  match optimizeAmplitudes unit idle_diis two_orbitals (unscaled 2) 2 tt
          single_store [0] [] with
  | Some (SerenityError cycle largestResidual st) =>
      cycle = 2%Z /\ largestResidual = 0%float /\
      gt largestResidual (maxResidual (unscaled 2)) = false /\
      t_ij (st 0) = [[(-0.5)%float; 0%float]; [0%float; (-0.5)%float]]
  | _ => False
  end /\
  match optimizeAmplitudes unit idle_diis two_orbitals (unscaled 3) 3 tt
          single_store [0] [] with
  | Some (Converged cycle largestResidual st) =>
      cycle = 2%Z /\ largestResidual = 0%float /\
      t_ij (st 0) = [[(-0.5)%float; 0%float]; [0%float; (-0.5)%float]]
  | _ => False
  end.
Proof. vm_compute. repeat split. Qed.

Lemma optimizeAmplitudes_ends_witness :
  (1 <= maxCycles (unscaled 2) < UINT_MAX_plus_1)%Z /\
  (maxCycles (unscaled 2) <= Z.of_nat 2)%Z /\
  exists o,
    optimizeAmplitudes unit idle_diis two_orbitals (unscaled 2) 2 tt
      single_store [0] [] = Some o.
Proof.
  assert (H1 : (1 <= maxCycles (unscaled 2) < UINT_MAX_plus_1)%Z)
    by (unfold UINT_MAX_plus_1; simpl; lia).
  assert (H2 : (maxCycles (unscaled 2) <= Z.of_nat 2)%Z) by (simpl; lia).
  split; [exact H1|]. split; [exact H2|].
  exact (optimizeAmplitudes_ends unit idle_diis two_orbitals (unscaled 2) 2 tt
           single_store [0] [] H1 H2).
Defined.

Lemma optimizeAmplitudes_outcome_witness :
  (1 <= maxCycles (unscaled 2) < UINT_MAX_plus_1)%Z /\
  exists o,
    optimizeAmplitudes unit idle_diis two_orbitals (unscaled 2) 2 tt
      single_store [0] [] = Some o /\
    match o with
    | Converged c lr _ =>
        (0 <= c < maxCycles (unscaled 2))%Z /\
        gt lr (maxResidual (unscaled 2)) = false
    | SerenityError c _ _ => c = maxCycles (unscaled 2)
    end.
Proof.
  assert (H1 : (1 <= maxCycles (unscaled 2) < UINT_MAX_plus_1)%Z)
    by (unfold UINT_MAX_plus_1; simpl; lia).
  split; [exact H1|].
  destruct (optimizeAmplitudes unit idle_diis two_orbitals (unscaled 2) 2 tt
              single_store [0] []) as [o|] eqn:E.
  - exists o. split; [reflexivity|].
    exact (optimizeAmplitudes_outcome unit idle_diis two_orbitals (unscaled 2)
             2 tt single_store [0] [] o H1 E).
  - vm_compute in E. discriminate E.
Defined.

Lemma optimizeAmplitudes_single_cycle_throws_witness :
  maxCycles (unscaled 1) = 1%Z /\
  gt 10%float (maxResidual (unscaled 1)) = true /\
  optimizeAmplitudes unit idle_diis two_orbitals (unscaled 1) 1 tt
    single_store [0] [] =
  Some (SerenityError 1
          (cycle_body unit idle_diis two_orbitals (unscaled 1)
             single_store tt [0] []).2
          (cycle_body unit idle_diis two_orbitals (unscaled 1)
             single_store tt [0] []).1.1).
Proof.
  split; [reflexivity|]. split; [reflexivity|].
  exact (optimizeAmplitudes_single_cycle_throws unit idle_diis two_orbitals
           (unscaled 1) 0 tt single_store [0] [] eq_refl eq_refl).
Defined.

(** The entry point on the pair (0,0) and two handles to the very distant
    pair: the list is split, the pair (0,0) converges in the second of
    three permitted cycles, and the very distant pair keeps its
    amplitudes. *)
Example calculateEnergyCorrection_screened :
  split_pairs screened_store [1; 0; 2] = ([0], [1; 2]) /\
  match calculateEnergyCorrection unit idle_diis two_orbitals (unscaled 3) 3
          tt screened_store [1; 0; 2] with
  | Some (inl (energies, st)) =>
      energies = [(-1)%float; (-0.00390625)%float; 0%float] /\
      t_ij (st 0) = [[(-1)%float]] /\ t_ij (st 1) = [[0.25%float]]
  | _ => False
  end.
Proof. vm_compute. repeat split. Qed.

(** * The order of doubles *)

Lemma SFcompare_antisym x y :
  SpecFloat.SFcompare y x = option_map CompOpp (SpecFloat.SFcompare x y).
Proof.
  destruct x as [s|s| |s m e], y as [s'|s'| |s' m' e']; simpl;
    try reflexivity; try (destruct s, s'; reflexivity);
    try (destruct s; reflexivity); try (destruct s'; reflexivity).
  destruct s, s'; try reflexivity;
    rewrite (Z.compare_antisym e' e);
    destruct (e' ?= e)%Z eqn:E; simpl; try reflexivity;
    rewrite (Pos.compare_cont_antisym m m' Eq); reflexivity.
Qed.

(** [x > y] holds for no NaN [x]. *)
Lemma gt_not_nan x y : gt x y = true -> PrimFloat.is_nan x = false.
Proof.
  unfold gt, PrimFloat.is_nan.
  rewrite FloatAxioms.ltb_spec, FloatAxioms.eqb_spec.
  destruct (FloatOps.Prim2SF x) as [s|s| |s m e];
    destruct (FloatOps.Prim2SF y) as [s'|s'| |s' m' e']; simpl;
    try discriminate; intros _; try reflexivity.
  all: try (destruct s; reflexivity).
  all: unfold SpecFloat.SFeqb, SpecFloat.SFcompare.
  all: destruct s;
    rewrite ?Z.compare_refl, ?Pos.compare_cont_refl, ?Pos.compare_refl;
    reflexivity.
Qed.

(** Of two doubles that are not NaN, the first is above the second or at
    most the second. *)
Lemma not_gt_leb x y :
  PrimFloat.is_nan x = false -> PrimFloat.is_nan y = false ->
  gt x y = false -> PrimFloat.leb x y = true.
Proof.
  unfold gt, PrimFloat.is_nan.
  rewrite FloatAxioms.ltb_spec, FloatAxioms.leb_spec, !FloatAxioms.eqb_spec.
  unfold SpecFloat.SFltb, SpecFloat.SFleb, SpecFloat.SFeqb.
  rewrite (SFcompare_antisym (FloatOps.Prim2SF x) (FloatOps.Prim2SF y)).
  destruct (FloatOps.Prim2SF x) as [s|s| |s m e];
    destruct (FloatOps.Prim2SF y) as [s'|s'| |s' m' e'];
    try (simpl; discriminate); intros _ _;
    destruct (SpecFloat.SFcompare _ _) as [[]|] eqn:E; simpl;
    try reflexivity; try discriminate.
  all: try (simpl in E; discriminate E).
  all: try (simpl in E; destruct s; discriminate E).
  all: try (simpl in E; destruct s'; discriminate E).
  all: try (simpl in E; destruct s, s'; discriminate E).
Qed.

(** * Further properties of the energy evaluation *)

Lemma pairEnergy_fields settings a b :
  i b = i a -> j b = j a -> t_ij b = t_ij a -> k_ij b = k_ij a ->
  pairEnergy settings b = pairEnergy settings a.
Proof.
  intros Hi Hj Ht Hk. unfold pairEnergy, ssEnergy, osEnergy, pairFactor.
  by rewrite Hi, Hj, Hk, Ht.
Qed.

(** The energy vector reads the indices, amplitudes, exchange integrals
    and [deltaPNO] of the close/distant pairs and the two tabulated
    energies of the very distant pairs, and nothing else: two stores that
    agree on these give the same three components. *)
Theorem calculateEnergy_reads settings st st' closePairs veryDistantPairs :
  (forall p, In p closePairs ->
     i (st' p) = i (st p) /\ j (st' p) = j (st p) /\
     t_ij (st' p) = t_ij (st p) /\ k_ij (st' p) = k_ij (st p) /\
     deltaPNO (st' p) = deltaPNO (st p)) ->
  (forall p, In p veryDistantPairs ->
     scMP2PairEnergy (st' p) = scMP2PairEnergy (st p) /\
     dipolePairEnergy (st' p) = dipolePairEnergy (st p)) ->
  (calculateEnergy settings st' closePairs veryDistantPairs).1 =
  (calculateEnergy settings st closePairs veryDistantPairs).1.
Proof.
  intros Hcl Hvd. rewrite !calculateEnergy_vector. f_equal; [|f_equal; [|f_equal]].
  - apply fold_left_ext_in. intros a p Hp.
    destruct (Hcl p Hp) as (Hi & Hj & Ht & Hk & _).
    by rewrite (pairEnergy_fields settings (st p) (st' p)).
  - apply fold_left_ext_in. intros a p Hp. unfold veryDistantPair_step.
    by destruct (Hvd p Hp) as [-> ->].
  - apply fold_left_ext_in. intros a p Hp. unfold pnoTruncation_step.
    by destruct (Hcl p Hp) as (_ & _ & _ & _ & ->).
Qed.

(** * Further properties of a sweep *)

Lemma solver_frame_refl a : solver_frame a a.
Proof. by repeat split. Qed.

Lemma solver_frame_trans a b c :
  solver_frame a b -> solver_frame b c -> solver_frame a c.
Proof.
  unfold solver_frame.
  intros (?&?&?&?&?&?&?&?&?&?) (?&?&?&?&?&?&?&?&?&?).
  repeat split; congruence.
Qed.

Lemma energy_frame_solver_frame a b : energy_frame a b -> solver_frame a b.
Proof.
  intros H. apply energy_frame_fields in H.
  destruct H as (?&?&?&?&?&?&?&?&?&?&?&?). by repeat split.
Qed.

Lemma apply_update_at st lr p r :
  (apply_update (st, lr) (p, r)).1 p = updated_pair (st p) r.
Proof.
  unfold updated_pair. destruct (is_VERY_DISTANT (type (st p))) eqn:H.
  - by rewrite apply_update_skip.
  - by destruct (apply_update_effect st lr p r H) as (-> & _).
Qed.

Lemma updated_pair_solver_frame pair r : solver_frame pair (updated_pair pair r).
Proof.
  unfold updated_pair. destruct (is_VERY_DISTANT (type pair)).
  - apply solver_frame_refl.
  - by repeat split.
Qed.

Lemma sweep_pair_solver_frame env st lr p q :
  solver_frame (st q) ((sweep_pair env (st, lr) p).1 q).
Proof.
  rewrite sweep_pair_apply_update.
  destruct (decide (q = p)) as [->|Hne].
  - rewrite apply_update_at. apply updated_pair_solver_frame.
  - rewrite apply_update_other by done. apply solver_frame_refl.
Qed.

(** A sweep writes amplitudes and residual fields only. *)
Lemma sweep_loop_solver_frame env l : forall st lr q,
  solver_frame (st q) ((fold_left (sweep_pair env) l (st, lr)).1 q).
Proof.
  induction l as [|p l IH]; intros st lr q; [apply solver_frame_refl|].
  rewrite sweep_loop_cons.
  eapply solver_frame_trans; [apply (sweep_pair_solver_frame env st lr p q)|].
  apply IH.
Qed.

Lemma sweep_pair_largest env st lr p :
  (sweep_pair env (st, lr) p).2 = lr \/
  gt (sweep_pair env (st, lr) p).2 lr = true.
Proof.
  rewrite sweep_pair_apply_update.
  destruct (is_VERY_DISTANT (type (st p))) eqn:H.
  - rewrite apply_update_skip by done. by left.
  - destruct (apply_update_effect st lr p (coupled_residual env st (st p)) H)
      as (_ & _ & ->).
    destruct (gt _ lr) eqn:Hgt; [by right | by left].
Qed.

(** The largest residual of a sweep is never NaN: a residual whose
    largest coefficient is NaN does not raise it. *)
Lemma sweep_loop_largest_not_nan env l : forall st lr,
  PrimFloat.is_nan lr = false ->
  PrimFloat.is_nan (fold_left (sweep_pair env) l (st, lr)).2 = false.
Proof.
  induction l as [|p l IH]; intros st lr H; [done|].
  rewrite sweep_loop_cons. apply IH.
  destruct (sweep_pair_largest env st lr p) as [-> | Hgt]; [done|].
  by apply gt_not_nan in Hgt.
Qed.

(** ** Sweeps over pairs that do not read each other *)

Lemma updates_pointwise (R : ptr -> Matrix) st0 l : forall st lr x,
  NoDup l -> (forall p, p ∈ l -> st p = st0 p) ->
  (x ∈ l ->
   (fold_left apply_update (zip l (map R l)) (st, lr)).1 x =
   updated_pair (st0 x) (R x)) /\
  (x ∉ l ->
   (fold_left apply_update (zip l (map R l)) (st, lr)).1 x = st x).
Proof.
  induction l as [|p l IH]; intros st lr x Hnd Hsame.
  - split; [by intros ?%elem_of_nil | done].
  - pose proof (NoDup_cons_1_1 _ _ Hnd) as Hp.
    apply NoDup_cons_1_2 in Hnd.
    change (fold_left apply_update (zip (p :: l) (map R (p :: l))) (st, lr))
      with (fold_left apply_update (zip l (map R l))
              (apply_update (st, lr) (p, R p))).
    destruct (apply_update (st, lr) (p, R p)) as [st1 lr1] eqn:E.
    assert (Hother : forall q, q ≠ p -> st1 q = st q).
    { intros q Hq. pose proof (apply_update_other st lr p (R p) q Hq) as H.
      by rewrite E in H. }
    assert (Hat : st1 p = updated_pair (st0 p) (R p)).
    { pose proof (apply_update_at st lr p (R p)) as H. rewrite E in H.
      simpl in H. rewrite H, Hsame; [done|]. by left. }
    assert (Hsame1 : forall q, q ∈ l -> st1 q = st0 q).
    { intros q Hq. rewrite Hother.
      - apply Hsame. by right.
      - intros ->. done. }
    destruct (IH st1 lr1 x Hnd Hsame1) as [Hin Hout].
    split.
    + intros [->|Hx]%elem_of_cons.
      * destruct (decide (p ∈ l)) as [Hpl|Hpl]; [done|].
        by rewrite (Hout Hpl).
      * by apply Hin.
    + intros [Hne Hx]%not_elem_of_cons.
      rewrite (Hout Hx). by apply Hother.
Qed.

Lemma forward_only_independent env st l : forall processed,
  NoDup l -> (forall x, x ∈ processed -> x ∉ l) ->
  (forall p q, p ∈ l -> q ∈ reads env st p -> q ∈ processed \/ q ∈ l -> q = p) ->
  forward_only env st processed l.
Proof.
  induction l as [|p l IH]; intros processed Hnd Hdis Hind; [done|].
  pose proof (NoDup_cons_1_1 _ _ Hnd) as Hp.
  apply NoDup_cons_1_2 in Hnd. simpl. split; [|split].
  - intros Hin. apply (Hdis p Hin). by left.
  - intros q Hq Hin.
    assert (q = p) as -> by (apply (Hind p q); [by left|done|by left]).
    apply (Hdis p Hin). by left.
  - apply IH; [done| |].
    + intros x [->|Hx]%elem_of_cons; [done|].
      intros Hl. apply (Hdis x Hx). by right.
    + intros p' q Hp' Hq Hin. apply (Hind p' q); [by right|done|].
      destruct Hin as [[->|Hin]%elem_of_cons|Hin].
      * right. by left.
      * by left.
      * right. by right.
Qed.

(** When no pair of the sweep occurs twice or reads another pair of the
    sweep, every pair of the sweep ends with the update computed from the
    store at the start of the sweep, and no other pair is written. *)
Lemma sweep_independent_pointwise env st l x :
  NoDup l ->
  (forall p q, p ∈ l -> q ∈ reads env st p -> q ∈ l -> q = p) ->
  (x ∈ l ->
   (sweep env st l).1 x = updated_pair (st x) (coupled_residual env st (st x))) /\
  (x ∉ l -> (sweep env st l).1 x = st x).
Proof.
  intros Hnd Hind. unfold sweep.
  rewrite (sweep_jacobi_from env st l [] st 0%float); [|done|].
  - by apply (updates_pointwise (fun p => coupled_residual env st (st p)) st l).
  - apply forward_only_independent; [done| |].
    + by intros y ?%elem_of_nil.
    + intros p q Hp Hq [Hin%elem_of_nil|Hin]; [done|]. by apply Hind.
Qed.

(** The order of a sweep is immaterial for the store it leaves when no
    pair of the sweep occurs twice or reads another pair of the sweep. *)
Theorem sweep_order_immaterial env st l l' x :
  NoDup l -> Permutation l l' ->
  (forall p q, p ∈ l -> q ∈ reads env st p -> q ∈ l -> q = p) ->
  (sweep env st l).1 x = (sweep env st l').1 x.
Proof.
  intros Hnd Hperm Hind.
  assert (Hnd' : NoDup l') by (by rewrite <- Hperm).
  assert (Hind' : forall p q, p ∈ l' -> q ∈ reads env st p -> q ∈ l' -> q = p).
  { intros p q Hp Hq Hin. apply Hind; [by rewrite Hperm|done|by rewrite Hperm]. }
  destruct (sweep_independent_pointwise env st l x Hnd Hind) as [Hin Hout].
  destruct (sweep_independent_pointwise env st l' x Hnd' Hind') as [Hin' Hout'].
  destruct (decide (x ∈ l)) as [Hx|Hx].
  - rewrite (Hin Hx), Hin'; [done|]. by rewrite <- Hperm.
  - rewrite (Hout Hx), Hout'; [done|]. by rewrite <- Hperm.
Qed.

(** * Further properties of the optimization loop *)

Section LoopProperties.

Variable DIIS : Type.
Variable diis_extrapolate : DIIS -> list (Matrix * Matrix) -> DIIS * list Matrix.
Variable env : Environment.
Variable settings : LocalMP2Settings.

Lemma write_amplitudes_solver_frame l : forall st q,
  solver_frame (st q) (fold_left write_amplitude l st q).
Proof.
  induction l as [|pt l IH]; intros st q; simpl; [apply solver_frame_refl|].
  eapply solver_frame_trans; [|apply IH].
  unfold write_amplitude. destruct (decide (pt.1 = q)) as [<-|Hne].
  - rewrite fn_lookup_insert. by repeat split.
  - rewrite fn_lookup_insert_ne by done. apply solver_frame_refl.
Qed.

(** A cycle writes amplitudes, residual fields and stored pair energies
    only. *)
Lemma cycle_body_solver_frame st diis orbitalPairs veryDistantPairs q :
  solver_frame (st q)
    ((cycle_body DIIS diis_extrapolate env settings st diis
        orbitalPairs veryDistantPairs).1.1 q).
Proof.
  rewrite cycle_body_spec. simpl.
  assert (H2 : solver_frame (st q)
                 ((calculateEnergy settings (sweep env st orbitalPairs).1
                     orbitalPairs veryDistantPairs).2 q)).
  { eapply solver_frame_trans; [apply sweep_loop_solver_frame|].
    apply energy_frame_solver_frame, calculateEnergy_frame. }
  destruct (gt _ _); simpl; [|done].
  rewrite diis_optimize_store.
  eapply solver_frame_trans; [apply H2|]. apply write_amplitudes_solver_frame.
Qed.

Lemma optimizeAmplitudes_loop_solver_frame orbitalPairs veryDistantPairs q :
  forall fuel st diis lr cycle o,
  optimizeAmplitudes_loop DIIS diis_extrapolate env settings fuel
    orbitalPairs veryDistantPairs st diis lr cycle = Some o ->
  solver_frame (st q) (final_store o q).
Proof.
  induction fuel as [|fuel IH]; intros st diis lr cycle o; simpl;
    destruct (gt lr (maxResidual settings)); try discriminate;
    try (intros [= <-]; apply solver_frame_refl).
  pose proof (cycle_body_solver_frame st diis orbitalPairs veryDistantPairs q)
    as Hc.
  destruct (cycle_body _ _ _ _ _ _ _ _) as [[st' diis'] lr'].
  simpl in Hc.
  destruct (_ >? _)%Z.
  - intros [= <-]. done.
  - intros Hloop. eapply solver_frame_trans; [apply Hc|].
    by apply (IH _ _ _ _ _ Hloop).
Qed.

(** However [optimizeAmplitudes] ends, it has written nothing but
    amplitudes, residual fields and stored pair energies (the indices,
    the type tag, the exchange integrals, the uncoupled term, the
    coupling sets and the tabulated energies of every pair are as
    before), and nothing at all of a pair outside [orbitalPairs]. *)
Theorem optimizeAmplitudes_writes fuel diis st orbitalPairs veryDistantPairs o q :
  optimizeAmplitudes DIIS diis_extrapolate env settings fuel diis st
    orbitalPairs veryDistantPairs = Some o ->
  solver_frame (st q) (final_store o q) /\
  (~ In q orbitalPairs -> final_store o q = st q).
Proof.
  unfold optimizeAmplitudes. intros H. split.
  - by apply (optimizeAmplitudes_loop_solver_frame orbitalPairs
                veryDistantPairs q _ _ _ _ _ _ H).
  - intros Hq.
    by apply (optimizeAmplitudes_loop_other DIIS diis_extrapolate env settings
                orbitalPairs veryDistantPairs q Hq _ _ _ _ _ _ H).
Qed.

(** ** The convergence metric *)

Lemma cycle_body_largest_not_nan st diis orbitalPairs veryDistantPairs :
  PrimFloat.is_nan
    (cycle_body DIIS diis_extrapolate env settings st diis
       orbitalPairs veryDistantPairs).2 = false.
Proof.
  rewrite cycle_body_spec. simpl. unfold sweep.
  by apply sweep_loop_largest_not_nan.
Qed.

Lemma optimizeAmplitudes_loop_metric orbitalPairs veryDistantPairs :
  forall fuel st diis lr cycle o,
  PrimFloat.is_nan lr = false ->
  optimizeAmplitudes_loop DIIS diis_extrapolate env settings fuel
    orbitalPairs veryDistantPairs st diis lr cycle = Some o ->
  match o with
  | Converged _ lr' _ =>
      PrimFloat.is_nan lr' = false /\ gt lr' (maxResidual settings) = false
  | SerenityError _ lr' _ => PrimFloat.is_nan lr' = false
  end.
Proof.
  induction fuel as [|fuel IH]; intros st diis lr cycle o Hnan; simpl;
    destruct (gt lr (maxResidual settings)) eqn:Hgt; try discriminate;
    try (by intros [= <-]).
  pose proof (cycle_body_largest_not_nan st diis orbitalPairs veryDistantPairs)
    as Hc.
  destruct (cycle_body _ _ _ _ _ _ _ _) as [[st' diis'] lr'].
  simpl in Hc.
  destruct (_ >? _)%Z.
  - by intros [= <-].
  - by apply IH.
Qed.

(** The residual that [optimizeAmplitudes] ends with is never NaN, and on
    a normal return it is at most [maxResidual] in the order of the
    doubles, provided [maxResidual] is not NaN itself: a residual whose
    largest coefficient is NaN is not seen by the convergence test. *)
Theorem optimizeAmplitudes_metric fuel diis st orbitalPairs veryDistantPairs o :
  optimizeAmplitudes DIIS diis_extrapolate env settings fuel diis st
    orbitalPairs veryDistantPairs = Some o ->
  match o with
  | Converged _ lr _ =>
      PrimFloat.is_nan lr = false /\
      (PrimFloat.is_nan (maxResidual settings) = false ->
       PrimFloat.leb lr (maxResidual settings) = true)
  | SerenityError _ lr _ => PrimFloat.is_nan lr = false
  end.
Proof.
  unfold optimizeAmplitudes. intros H.
  apply optimizeAmplitudes_loop_metric in H; [|reflexivity].
  destruct o as [c lr st'|c lr st']; [|done].
  destruct H as [Hnan Hgt]. split; [done|].
  intros Hmax. by apply not_gt_leb.
Qed.

(** ** The cycle limit *)

Lemma optimizeAmplitudes_loop_unlimited orbitalPairs veryDistantPairs :
  maxCycles settings = 0%Z ->
  forall fuel st diis lr cycle o,
  optimizeAmplitudes_loop DIIS diis_extrapolate env settings fuel
    orbitalPairs veryDistantPairs st diis lr cycle = Some o ->
  exists c lr' st', o = Converged c lr' st'.
Proof.
  intros HM. induction fuel as [|fuel IH]; intros st diis lr cycle o; simpl;
    destruct (gt lr (maxResidual settings)); try discriminate;
    try (intros [= <-]; by eexists _, _, _).
  destruct (cycle_body _ _ _ _ _ _ _ _) as [[st' diis'] lr'].
  rewrite HM, Z.gtb_ltb.
  destruct (Z.ltb_spec ((0 - 1) mod UINT_MAX_plus_1)
              ((cycle + 1) mod UINT_MAX_plus_1)) as [Hlt|Hge].
  - exfalso. unfold UINT_MAX_plus_1 in Hlt.
    pose proof (Z.mod_pos_bound (cycle + 1) (2 ^ 32) ltac:(lia)).
    change ((0 - 1) mod 2 ^ 32)%Z with (2 ^ 32 - 1)%Z in Hlt. lia.
  - apply IH.
Qed.

(** With [maxCycles = 0] the cycle limit is off: [maxCycles - 1] wraps
    around to [UINT_MAX], which the counter never exceeds, so the call
    never throws; it can only return. *)
Theorem optimizeAmplitudes_unlimited fuel diis st orbitalPairs veryDistantPairs o :
  maxCycles settings = 0%Z ->
  optimizeAmplitudes DIIS diis_extrapolate env settings fuel diis st
    orbitalPairs veryDistantPairs = Some o ->
  exists c lr st', o = Converged c lr st'.
Proof.
  intros HM H. unfold optimizeAmplitudes in H.
  by apply (optimizeAmplitudes_loop_unlimited orbitalPairs veryDistantPairs HM
              _ _ _ _ _ _ H).
Qed.

(** ** The loop as a search for the first converged cycle *)

Lemma cycles_S orbitalPairs veryDistantPairs st diis m :
  cycles DIIS diis_extrapolate env settings orbitalPairs veryDistantPairs
    st diis (S m) =
  cycle_body DIIS diis_extrapolate env settings
    (cycles DIIS diis_extrapolate env settings orbitalPairs veryDistantPairs
       st diis m).1.1
    (cycles DIIS diis_extrapolate env settings orbitalPairs veryDistantPairs
       st diis m).1.2
    orbitalPairs veryDistantPairs.
Proof.
  simpl. by destruct (cycles _ _ _ _ _ _ _ _ m) as [[st' diis'] lr'].
Qed.

Lemma optimizeAmplitudes_loop_step fuel orbitalPairs veryDistantPairs
    st diis lr cycle :
  optimizeAmplitudes_loop DIIS diis_extrapolate env settings (S fuel)
    orbitalPairs veryDistantPairs st diis lr cycle =
  if gt lr (maxResidual settings) then
    let next := cycle_body DIIS diis_extrapolate env settings st diis
                  orbitalPairs veryDistantPairs in
    let cycle' := ((cycle + 1) mod UINT_MAX_plus_1)%Z in
    if (cycle' >? (maxCycles settings - 1) mod UINT_MAX_plus_1)%Z
    then Some (SerenityError cycle' next.2 next.1.1)
    else optimizeAmplitudes_loop DIIS diis_extrapolate env settings fuel
           orbitalPairs veryDistantPairs next.1.1 next.1.2 next.2 cycle'
  else Some (Converged cycle lr st).
Proof.
  simpl. destruct (gt lr (maxResidual settings)); [|done].
  by destruct (cycle_body _ _ _ _ _ _ _ _) as [[st' diis'] lr'].
Qed.

Lemma optimizeAmplitudes_loop_stop fuel orbitalPairs veryDistantPairs
    st diis lr cycle :
  gt lr (maxResidual settings) = false ->
  optimizeAmplitudes_loop DIIS diis_extrapolate env settings fuel
    orbitalPairs veryDistantPairs st diis lr cycle =
  Some (Converged cycle lr st).
Proof. intros H. destruct fuel; simpl; by rewrite H. Qed.

(** From the state after [k] cycles, the loop returns at the first cycle
    count [k + d] whose largest residual is not above the threshold. *)
Lemma optimizeAmplitudes_loop_first orbitalPairs veryDistantPairs st diis :
  (1 <= maxCycles settings < UINT_MAX_plus_1)%Z ->
  forall d fuel k,
  (Z.of_nat (k + d) < maxCycles settings)%Z ->
  (forall m, k <= m < k + d ->
     gt (cycles DIIS diis_extrapolate env settings orbitalPairs
           veryDistantPairs st diis m).2 (maxResidual settings) = true) ->
  gt (cycles DIIS diis_extrapolate env settings orbitalPairs
        veryDistantPairs st diis (k + d)).2 (maxResidual settings) = false ->
  d <= fuel ->
  optimizeAmplitudes_loop DIIS diis_extrapolate env settings fuel
    orbitalPairs veryDistantPairs
    (cycles DIIS diis_extrapolate env settings orbitalPairs veryDistantPairs
       st diis k).1.1
    (cycles DIIS diis_extrapolate env settings orbitalPairs veryDistantPairs
       st diis k).1.2
    (cycles DIIS diis_extrapolate env settings orbitalPairs veryDistantPairs
       st diis k).2
    (Z.of_nat k) =
  Some (Converged (Z.of_nat (k + d))
          (cycles DIIS diis_extrapolate env settings orbitalPairs
             veryDistantPairs st diis (k + d)).2
          (cycles DIIS diis_extrapolate env settings orbitalPairs
             veryDistantPairs st diis (k + d)).1.1).
Proof.
  intros HM. induction d as [|d IH]; intros fuel k Hn Hbefore Hat Hfuel.
  - rewrite Nat.add_0_r in *. by apply optimizeAmplitudes_loop_stop.
  - destruct fuel as [|fuel]; [lia|].
    rewrite optimizeAmplitudes_loop_step, (Hbefore k) by lia.
    cbv zeta. rewrite <- cycles_S.
    destruct (cycle_counter_step settings (Z.of_nat k) HM ltac:(lia))
      as [-> ->].
    rewrite Z.gtb_ltb.
    destruct (Z.ltb_spec (maxCycles settings - 1) (Z.of_nat k + 1)); [lia|].
    replace (Z.of_nat k + 1)%Z with (Z.of_nat (S k)) by lia.
    replace (k + S d) with (S k + d) in * by lia.
    apply IH; [done| |done|lia].
    intros m Hm. apply Hbefore. lia.
Qed.

(** [optimizeAmplitudes] returns after the first number of cycles [n]
    below [maxCycles] for which the largest residual is not above
    [maxResidual] (10 counts as the largest residual of zero cycles), with
    the store that [n] cycles leave, as soon as the fuel covers [n]
    cycles. *)
Theorem optimizeAmplitudes_first_converged
    fuel diis st orbitalPairs veryDistantPairs n :
  (1 <= maxCycles settings < UINT_MAX_plus_1)%Z ->
  (Z.of_nat n < maxCycles settings)%Z ->
  (forall m, m < n ->
     gt (cycles DIIS diis_extrapolate env settings orbitalPairs
           veryDistantPairs st diis m).2 (maxResidual settings) = true) ->
  gt (cycles DIIS diis_extrapolate env settings orbitalPairs
        veryDistantPairs st diis n).2 (maxResidual settings) = false ->
  n <= fuel ->
  optimizeAmplitudes DIIS diis_extrapolate env settings fuel diis st
    orbitalPairs veryDistantPairs =
  Some (Converged (Z.of_nat n)
          (cycles DIIS diis_extrapolate env settings orbitalPairs
             veryDistantPairs st diis n).2
          (cycles DIIS diis_extrapolate env settings orbitalPairs
             veryDistantPairs st diis n).1.1).
Proof.
  intros HM Hn Hbefore Hat Hfuel. unfold optimizeAmplitudes.
  apply (optimizeAmplitudes_loop_first orbitalPairs veryDistantPairs st diis
           HM n fuel 0); try done.
  intros m Hm. apply Hbefore. lia.
Qed.

(** From the state after [k] cycles that were all above the threshold, an
    outcome of the loop is the state after some number of cycles, all
    earlier ones above the threshold. *)
Lemma optimizeAmplitudes_loop_trace orbitalPairs veryDistantPairs st diis :
  (1 <= maxCycles settings < UINT_MAX_plus_1)%Z ->
  forall fuel k o,
  (Z.of_nat k < maxCycles settings)%Z ->
  (forall m, m < k ->
     gt (cycles DIIS diis_extrapolate env settings orbitalPairs
           veryDistantPairs st diis m).2 (maxResidual settings) = true) ->
  optimizeAmplitudes_loop DIIS diis_extrapolate env settings fuel
    orbitalPairs veryDistantPairs
    (cycles DIIS diis_extrapolate env settings orbitalPairs veryDistantPairs
       st diis k).1.1
    (cycles DIIS diis_extrapolate env settings orbitalPairs veryDistantPairs
       st diis k).1.2
    (cycles DIIS diis_extrapolate env settings orbitalPairs veryDistantPairs
       st diis k).2
    (Z.of_nat k) = Some o ->
  exists n,
    (forall m, m < n ->
       gt (cycles DIIS diis_extrapolate env settings orbitalPairs
             veryDistantPairs st diis m).2 (maxResidual settings) = true) /\
    match o with
    | Converged c lr st' =>
        c = Z.of_nat n /\ (c < maxCycles settings)%Z /\
        lr = (cycles DIIS diis_extrapolate env settings orbitalPairs
                veryDistantPairs st diis n).2 /\
        st' = (cycles DIIS diis_extrapolate env settings orbitalPairs
                 veryDistantPairs st diis n).1.1 /\
        gt lr (maxResidual settings) = false
    | SerenityError c lr st' =>
        c = Z.of_nat n /\ c = maxCycles settings /\
        lr = (cycles DIIS diis_extrapolate env settings orbitalPairs
                veryDistantPairs st diis n).2 /\
        st' = (cycles DIIS diis_extrapolate env settings orbitalPairs
                 veryDistantPairs st diis n).1.1
    end.
Proof.
  intros HM. induction fuel as [|fuel IH]; intros k o Hk Hbefore.
  - simpl. destruct (gt _ (maxResidual settings)) eqn:Hgt; [discriminate|].
    intros [= <-]. exists k. by repeat split.
  - rewrite optimizeAmplitudes_loop_step.
    destruct (gt _ (maxResidual settings)) eqn:Hgt.
    + cbv zeta. rewrite <- cycles_S.
      destruct (cycle_counter_step settings (Z.of_nat k) HM ltac:(lia))
        as [-> ->].
      rewrite Z.gtb_ltb.
      assert (Hbefore' : forall m, m < S k ->
                gt (cycles DIIS diis_extrapolate env settings orbitalPairs
                      veryDistantPairs st diis m).2 (maxResidual settings) = true).
      { intros m Hm. destruct (decide (m = k)) as [->|Hne]; [done|].
        apply Hbefore. lia. }
      replace (Z.of_nat k + 1)%Z with (Z.of_nat (S k)) by lia.
      destruct (Z.ltb_spec (maxCycles settings - 1) (Z.of_nat (S k))).
      * intros [= <-]. exists (S k). repeat split; [done|lia].
      * intros Hloop. apply (IH (S k) o); [lia|done|done].
    + intros [= <-]. exists k. by repeat split.
Qed.

(** What an outcome of [optimizeAmplitudes] means: a normal return after
    [n] cycles, [n] below [maxCycles], carries the store and the largest
    residual that [n] cycles leave, that residual is not above
    [maxResidual], and each earlier cycle count had a largest residual
    above it; the error carries the state after [maxCycles] cycles, each
    earlier cycle count above the threshold. *)
Theorem optimizeAmplitudes_trace fuel diis st orbitalPairs veryDistantPairs o :
  (1 <= maxCycles settings < UINT_MAX_plus_1)%Z ->
  optimizeAmplitudes DIIS diis_extrapolate env settings fuel diis st
    orbitalPairs veryDistantPairs = Some o ->
  exists n,
    (forall m, m < n ->
       gt (cycles DIIS diis_extrapolate env settings orbitalPairs
             veryDistantPairs st diis m).2 (maxResidual settings) = true) /\
    match o with
    | Converged c lr st' =>
        c = Z.of_nat n /\ (c < maxCycles settings)%Z /\
        lr = (cycles DIIS diis_extrapolate env settings orbitalPairs
                veryDistantPairs st diis n).2 /\
        st' = (cycles DIIS diis_extrapolate env settings orbitalPairs
                 veryDistantPairs st diis n).1.1 /\
        gt lr (maxResidual settings) = false
    | SerenityError c lr st' =>
        c = Z.of_nat n /\ c = maxCycles settings /\
        lr = (cycles DIIS diis_extrapolate env settings orbitalPairs
                veryDistantPairs st diis n).2 /\
        st' = (cycles DIIS diis_extrapolate env settings orbitalPairs
                 veryDistantPairs st diis n).1.1
    end.
Proof.
  intros HM H. unfold optimizeAmplitudes in H.
  apply (optimizeAmplitudes_loop_trace orbitalPairs veryDistantPairs st diis
           HM fuel 0 o); [simpl; lia| |done].
  intros m Hm. lia.
Qed.

Lemma cycle_body_no_pairs st diis veryDistantPairs :
  (cycle_body DIIS diis_extrapolate env settings st diis [] veryDistantPairs).1.1
    = st /\
  (cycle_body DIIS diis_extrapolate env settings st diis [] veryDistantPairs).2
    = 0%float.
Proof.
  rewrite cycle_body_spec. simpl. split; [|done].
  destruct (gt _ _); [|done].
  by rewrite diis_optimize_store.
Qed.

(** Without a pair to optimize, [optimizeAmplitudes] runs one cycle, finds
    the largest residual 0 and returns with the store as it was, provided
    the threshold lies between 0 and 10 and two cycles are permitted. *)
Theorem optimizeAmplitudes_no_pairs fuel diis st veryDistantPairs :
  (2 <= maxCycles settings < UINT_MAX_plus_1)%Z ->
  gt 10%float (maxResidual settings) = true ->
  gt 0%float (maxResidual settings) = false ->
  optimizeAmplitudes DIIS diis_extrapolate env settings (S fuel) diis st
    [] veryDistantPairs = Some (Converged 1 0%float st).
Proof.
  intros HM H10 H0. unfold optimizeAmplitudes.
  pose proof (optimizeAmplitudes_loop_first [] veryDistantPairs st diis
                ltac:(lia) 1 (S fuel) 0) as H.
  simpl in H.
  destruct (cycle_body_no_pairs st diis veryDistantPairs) as [Hst Hlr].
  rewrite Hst, Hlr in H. apply H; [lia| |done|lia].
  intros m Hm. by replace m with 0 by lia.
Qed.

(** ** The entry point *)

(** When [calculateEnergyCorrection] returns, the vector it returns is
    the energy vector of the store it leaves, and every pair of the list
    that is not very distant stores the pair energy of the amplitudes it
    is left with, plus its [deltaPNO]. *)
Theorem calculateEnergyCorrection_result fuel diis st pairs e st' :
  calculateEnergyCorrection DIIS diis_extrapolate env settings fuel diis
    st pairs = Some (inl (e, st')) ->
  e = (calculateEnergy settings st' (split_pairs st pairs).1
         (split_pairs st pairs).2).1 /\
  (forall p, In p pairs -> is_VERY_DISTANT (type (st p)) = false ->
     lMP2PairEnergy (st' p) =
     (ssScaling settings * ssEnergy (st' p) +
      osScaling settings * osEnergy (st' p) + deltaPNO (st' p))%float).
Proof.
  unfold calculateEnergyCorrection.
  pose proof (split_pairs_filter st pairs) as Hsplit.
  destruct (split_pairs st pairs) as [cl vd]. injection Hsplit as Hcl Hvd.
  destruct (optimizeAmplitudes _ _ _ _ _ _ _ _ _) as [[c lr st1|c lr st1]|];
    try discriminate.
  intros [= He]. simpl.
  assert (Hst' : st' = (calculateEnergy settings st1 cl vd).2) by (by rewrite He).
  assert (Hfr : forall q, energy_frame (st1 q) (st' q))
    by (intros q; rewrite Hst'; apply calculateEnergy_frame).
  split.
  - assert (Hv : e = (calculateEnergy settings st1 cl vd).1) by (by rewrite He).
    rewrite Hv, !calculateEnergy_vector.
    rewrite (veryDistantPair_step_frame st1 st' Hfr),
            (pnoTruncation_step_frame st1 st' Hfr).
    f_equal. apply fold_left_pointwise. intros a p.
    by rewrite (pairEnergy_frame settings _ _ (Hfr p)).
  - intros p Hp Hty.
    assert (Hin : In p cl).
    { rewrite Hcl. apply filter_In. split; [done|]. by rewrite Hty. }
    change (ssScaling settings * ssEnergy (st' p) +
            osScaling settings * osEnergy (st' p))%float
      with (pairEnergy settings (st' p)).
    rewrite (pairEnergy_frame settings _ _ (Hfr p)).
    destruct (energy_frame_fields _ _ (Hfr p)) as (_&_&_&_&_&_&_&_&->&_).
    rewrite Hst', calculateEnergy_store.
    by destruct (closePairs_loop_stored settings cl st1 st1 0%float p
                   (fun q => energy_frame_refl _)) as [-> _].
Qed.

End LoopProperties.

(** * The further statements on the example systems *)

Lemma calculateEnergy_reads_witness :
  (forall p, In p [0] ->
     i (restamped_store p) = i (corrected_store p) /\
     j (restamped_store p) = j (corrected_store p) /\
     t_ij (restamped_store p) = t_ij (corrected_store p) /\
     k_ij (restamped_store p) = k_ij (corrected_store p) /\
     deltaPNO (restamped_store p) = deltaPNO (corrected_store p)) /\
  (forall p, In p [1] ->
     scMP2PairEnergy (restamped_store p) = scMP2PairEnergy (corrected_store p) /\
     dipolePairEnergy (restamped_store p) = dipolePairEnergy (corrected_store p)) /\
  (calculateEnergy (unscaled 1) restamped_store [0] [1]).1 =
  (calculateEnergy (unscaled 1) corrected_store [0] [1]).1.
Proof.
  assert (H1 : forall p, In p [0] ->
     i (restamped_store p) = i (corrected_store p) /\
     j (restamped_store p) = j (corrected_store p) /\
     t_ij (restamped_store p) = t_ij (corrected_store p) /\
     k_ij (restamped_store p) = k_ij (corrected_store p) /\
     deltaPNO (restamped_store p) = deltaPNO (corrected_store p))
    by (intros p _; repeat split).
  assert (H2 : forall p, In p [1] ->
     scMP2PairEnergy (restamped_store p) = scMP2PairEnergy (corrected_store p) /\
     dipolePairEnergy (restamped_store p) = dipolePairEnergy (corrected_store p))
    by (intros p _; repeat split).
  split; [exact H1|]. split; [exact H2|].
  exact (calculateEnergy_reads (unscaled 1) corrected_store restamped_store
           [0] [1] H1 H2).
Defined.

Lemma sweep_order_immaterial_witness :
  NoDup [1; 2] /\ Permutation [1; 2] [2; 1] /\
  (forall p q, p ∈ [1; 2] -> q ∈ reads two_orbitals coupled_store p ->
               q ∈ [1; 2] -> q = p) /\
  (sweep two_orbitals coupled_store [1; 2]).1 1 =
  (sweep two_orbitals coupled_store [2; 1]).1 1.
Proof.
  assert (Hnd : NoDup [1; 2]).
  { apply NoDup_cons_2.
    - intros [?|?%elem_of_nil]%elem_of_cons; [discriminate|done].
    - apply NoDup_cons_2; [apply not_elem_of_nil|apply NoDup_nil_2]. }
  assert (Hperm : Permutation [1; 2] [2; 1]) by apply perm_swap.
  assert (R1 : reads two_orbitals coupled_store 1 = [0])
    by (vm_compute; reflexivity).
  assert (R2 : reads two_orbitals coupled_store 2 = [0])
    by (vm_compute; reflexivity).
  assert (Hind : forall p q, p ∈ [1; 2] ->
            q ∈ reads two_orbitals coupled_store p -> q ∈ [1; 2] -> q = p).
  { intros p q [->|[->|?%elem_of_nil]%elem_of_cons]%elem_of_cons Hq Hin;
      [rewrite R1 in Hq|rewrite R2 in Hq|done];
      apply list_elem_of_singleton in Hq; subst q;
      apply elem_of_cons in Hin as [?|[?|?%elem_of_nil]%elem_of_cons];
      done. }
  split; [exact Hnd|]. split; [exact Hperm|]. split; [exact Hind|].
  exact (sweep_order_immaterial two_orbitals coupled_store [1; 2] [2; 1] 1
           Hnd Hperm Hind).
Defined.

Lemma optimizeAmplitudes_writes_witness :
  exists o,
    optimizeAmplitudes unit idle_diis two_orbitals (unscaled 3) 3 tt
      coupled_store [1] [] = Some o /\
    solver_frame (coupled_store 1) (final_store o 1) /\
    (~ In 0 [1] -> final_store o 0 = coupled_store 0).
Proof.
  destruct (optimizeAmplitudes unit idle_diis two_orbitals (unscaled 3) 3 tt
              coupled_store [1] []) as [o|] eqn:E.
  - exists o. split; [reflexivity|]. split.
    + exact (proj1 (optimizeAmplitudes_writes unit idle_diis two_orbitals
                      (unscaled 3) 3 tt coupled_store [1] [] o 1 E)).
    + exact (proj2 (optimizeAmplitudes_writes unit idle_diis two_orbitals
                      (unscaled 3) 3 tt coupled_store [1] [] o 0 E)).
  - vm_compute in E. discriminate E.
Defined.

Lemma optimizeAmplitudes_metric_witness :
  exists o,
    optimizeAmplitudes unit idle_diis two_orbitals (unscaled 3) 3 tt
      single_store [0] [] = Some o /\
    match o with
    | Converged _ lr _ =>
        PrimFloat.is_nan lr = false /\
        (PrimFloat.is_nan (maxResidual (unscaled 3)) = false ->
         PrimFloat.leb lr (maxResidual (unscaled 3)) = true)
    | SerenityError _ lr _ => PrimFloat.is_nan lr = false
    end.
Proof.
  destruct (optimizeAmplitudes unit idle_diis two_orbitals (unscaled 3) 3 tt
              single_store [0] []) as [o|] eqn:E.
  - exists o. split; [reflexivity|].
    exact (optimizeAmplitudes_metric unit idle_diis two_orbitals (unscaled 3)
             3 tt single_store [0] [] o E).
  - vm_compute in E. discriminate E.
Defined.

Lemma optimizeAmplitudes_unlimited_witness :
  maxCycles (unscaled 0) = 0%Z /\
  exists o,
    optimizeAmplitudes unit idle_diis two_orbitals (unscaled 0) 2 tt
      single_store [0] [] = Some o /\
    exists c lr st', o = Converged c lr st'.
Proof.
  split; [reflexivity|].
  destruct (optimizeAmplitudes unit idle_diis two_orbitals (unscaled 0) 2 tt
              single_store [0] []) as [o|] eqn:E.
  - exists o. split; [reflexivity|].
    exact (optimizeAmplitudes_unlimited unit idle_diis two_orbitals
             (unscaled 0) 2 tt single_store [0] [] o eq_refl E).
  - vm_compute in E. discriminate E.
Defined.

Lemma optimizeAmplitudes_first_converged_witness :
  (1 <= maxCycles (unscaled 3) < UINT_MAX_plus_1)%Z /\
  (Z.of_nat 2 < maxCycles (unscaled 3))%Z /\
  (forall m, m < 2 ->
     gt (cycles unit idle_diis two_orbitals (unscaled 3) [0] []
           single_store tt m).2 (maxResidual (unscaled 3)) = true) /\
  gt (cycles unit idle_diis two_orbitals (unscaled 3) [0] []
        single_store tt 2).2 (maxResidual (unscaled 3)) = false /\
  2 <= 2 /\
  optimizeAmplitudes unit idle_diis two_orbitals (unscaled 3) 2 tt
    single_store [0] [] =
  Some (Converged (Z.of_nat 2)
          (cycles unit idle_diis two_orbitals (unscaled 3) [0] []
             single_store tt 2).2
          (cycles unit idle_diis two_orbitals (unscaled 3) [0] []
             single_store tt 2).1.1).
Proof.
  assert (H1 : (1 <= maxCycles (unscaled 3) < UINT_MAX_plus_1)%Z)
    by (unfold UINT_MAX_plus_1; simpl; lia).
  assert (H2 : (Z.of_nat 2 < maxCycles (unscaled 3))%Z) by (simpl; lia).
  assert (H3 : forall m, m < 2 ->
     gt (cycles unit idle_diis two_orbitals (unscaled 3) [0] []
           single_store tt m).2 (maxResidual (unscaled 3)) = true).
  { intros [|[|m]] Hm; [vm_compute; reflexivity..|lia]. }
  assert (H4 : gt (cycles unit idle_diis two_orbitals (unscaled 3) [0] []
                     single_store tt 2).2 (maxResidual (unscaled 3)) = false)
    by (vm_compute; reflexivity).
  assert (H5 : 2 <= 2) by lia.
  split; [exact H1|]. split; [exact H2|]. split; [exact H3|].
  split; [exact H4|]. split; [exact H5|].
  exact (optimizeAmplitudes_first_converged unit idle_diis two_orbitals
           (unscaled 3) 2 tt single_store [0] [] 2 H1 H2 H3 H4 H5).
Defined.

Lemma optimizeAmplitudes_trace_witness :
  (1 <= maxCycles (unscaled 2) < UINT_MAX_plus_1)%Z /\
  exists o,
    optimizeAmplitudes unit idle_diis two_orbitals (unscaled 2) 2 tt
      single_store [0] [] = Some o /\
    exists n,
      (forall m, m < n ->
         gt (cycles unit idle_diis two_orbitals (unscaled 2) [0] []
               single_store tt m).2 (maxResidual (unscaled 2)) = true) /\
      match o with
      | Converged c lr st' =>
          c = Z.of_nat n /\ (c < maxCycles (unscaled 2))%Z /\
          lr = (cycles unit idle_diis two_orbitals (unscaled 2) [0] []
                  single_store tt n).2 /\
          st' = (cycles unit idle_diis two_orbitals (unscaled 2) [0] []
                   single_store tt n).1.1 /\
          gt lr (maxResidual (unscaled 2)) = false
      | SerenityError c lr st' =>
          c = Z.of_nat n /\ c = maxCycles (unscaled 2) /\
          lr = (cycles unit idle_diis two_orbitals (unscaled 2) [0] []
                  single_store tt n).2 /\
          st' = (cycles unit idle_diis two_orbitals (unscaled 2) [0] []
                   single_store tt n).1.1
      end.
Proof.
  assert (H1 : (1 <= maxCycles (unscaled 2) < UINT_MAX_plus_1)%Z)
    by (unfold UINT_MAX_plus_1; simpl; lia).
  split; [exact H1|].
  destruct (optimizeAmplitudes unit idle_diis two_orbitals (unscaled 2) 2 tt
              single_store [0] []) as [o|] eqn:E.
  - exists o. split; [reflexivity|].
    exact (optimizeAmplitudes_trace unit idle_diis two_orbitals (unscaled 2)
             2 tt single_store [0] [] o H1 E).
  - vm_compute in E. discriminate E.
Defined.

Lemma optimizeAmplitudes_no_pairs_witness :
  (2 <= maxCycles (unscaled 2) < UINT_MAX_plus_1)%Z /\
  gt 10%float (maxResidual (unscaled 2)) = true /\
  gt 0%float (maxResidual (unscaled 2)) = false /\
  optimizeAmplitudes unit idle_diis two_orbitals (unscaled 2) 1 tt
    screened_store [] [1] = Some (Converged 1 0%float screened_store).
Proof.
  assert (H1 : (2 <= maxCycles (unscaled 2) < UINT_MAX_plus_1)%Z)
    by (unfold UINT_MAX_plus_1; simpl; lia).
  split; [exact H1|]. split; [reflexivity|]. split; [reflexivity|].
  exact (optimizeAmplitudes_no_pairs unit idle_diis two_orbitals (unscaled 2)
           0 tt screened_store [1] H1 eq_refl eq_refl).
Defined.

Lemma calculateEnergyCorrection_result_witness :
  exists e st',
    calculateEnergyCorrection unit idle_diis two_orbitals (unscaled 3) 3 tt
      screened_store [1; 0; 2] = Some (inl (e, st')) /\
    e = (calculateEnergy (unscaled 3) st'
           (split_pairs screened_store [1; 0; 2]).1
           (split_pairs screened_store [1; 0; 2]).2).1 /\
    lMP2PairEnergy (st' 0) =
    (ssScaling (unscaled 3) * ssEnergy (st' 0%nat) +
     osScaling (unscaled 3) * osEnergy (st' 0%nat) + deltaPNO (st' 0%nat))%float.
Proof.
  destruct (calculateEnergyCorrection unit idle_diis two_orbitals (unscaled 3)
              3 tt screened_store [1; 0; 2]) as [[[e st']|o]|] eqn:E.
  - exists e, st'. split; [reflexivity|].
    destruct (calculateEnergyCorrection_result unit idle_diis two_orbitals
                (unscaled 3) 3 tt screened_store [1; 0; 2] e st' E)
      as [He Hp].
    split; [exact He|].
    exact (Hp 0 (or_intror (or_introl eq_refl)) eq_refl).
  - vm_compute in E. discriminate E.
  - vm_compute in E. discriminate E.
Defined.
